(** * A TCP greeting server: the accept/reap loop and the worker life cycle

    Shallow embedding of [my_server/__init__.py].  The two classes of the
    program, [MyServer] and [ClientHandler], become two modules; their
    methods become functions in a small state-and-exception monad whose
    state carries the object and the sequence of observable events
    (socket calls, flag writes, log lines) in program order.  [MyServer]
    is a context manager, and [test.py] uses it as one; the [with]
    statement around it is part of the model.

    What the source leaves to its surroundings is an explicit input of the
    model: the scheduling of the worker threads, the condition of each
    peer, and whether a connection is pending on the listening socket.

    Sockets, [threading.Thread] and [multiprocessing.Process] are modelled
    as the Python objects the source holds: a socket is open, shut down or
    closed; a thread or process has not started, runs, or has ended; a
    call on an object in the wrong state raises what CPython raises.  A
    blocking [join] lets the awaited thread or process run.  What the
    network stack below does to a connection is visible through the
    calls that need the connection: once the peer has torn it down,
    [send] fails with the error of the network stack, and [getpeername]
    and [shutdown] fail with [OSError]. *)

From Stdlib Require Import ZArith Ascii String.
From stdpp Require Import base list.

Local Open Scope Z_scope.

(** ** Exceptions, log lines and observable events *)

Inductive exn : Set :=
| AssertionError
| ValueError
| OSError
| BrokenPipeError
| ConnectionResetError
| ConnectionAbortedError
| UnicodeEncodeError.

(** The lines written through [self._log.info]. *)
Inductive log_line : Set :=
| SettingUp
| ClosingServer
| ServerClosed
| CleaningUp (h : nat)
| BeginService (h : nat)
| ClientDisconnected (h : nat).

(** Workers are numbered in the order in which they are created.  An
    event is written when the call it stands for has returned, except
    [Bind], which is written when the call is made. *)
Inductive event : Set :=
| Log (l : log_line)
(* the owning handle *)
| Bind                             (* self._soc.bind is called *)
| Listen                           (* self._soc.listen *)
| ProcStart                        (* self._server_proc.start *)
| FlagClear                        (* self._server_enabled.clear *)
| ProcJoin                         (* self._server_proc.join *)
| ProcClose                        (* self._server_proc.close *)
| ListenClose                      (* self._soc.close *)
(* the runner process *)
| FlagSet                          (* status.set, line 66 *)
| Select (timeout : Z)             (* select.select *)
| Accept (h : nat)                 (* soc.accept and the new ClientHandler *)
| Remove (h : nat)                 (* self._active_clients.remove *)
| ProcExit                         (* _server_loop has returned *)
| ProcDied (e : exn)               (* _server_loop has raised *)
(* a worker, as seen from the runner *)
| ClientClear (h : nat)            (* self._client_enabled.clear *)
| ClientJoin (h : nat)             (* self._client_thread.join *)
| Shutdown (h : nat)               (* self._soc.shutdown *)
| Close (h : nat)                  (* self._soc.close, on an open socket *)
(* a worker thread *)
| ClientSet (h : nat)              (* status.set, line 118 *)
| Send (h : nat) (data : list Z)   (* self._soc.send *)
| Sleep (h : nat) (secs : Z)       (* time.sleep *)
| ThreadDied (h : nat) (e : exn).  (* _client_loop has raised *)

(** ** The monad: a state, the trace so far, and four ways to end

    [Blocked] is a call that waits for something that does not happen
    (a [join] on a thread that keeps running); [Stuck] is a reference to
    an object that was never created. *)

Section Monad.
Context {S : Type}.

Record config := Config { now : S; trace : list event }.

Inductive result (A : Type) :=
| Done (a : A) (c : config)
| Raised (e : exn) (c : config)
| Blocked (c : config)
| Stuck.

Definition M (A : Type) := config → result A.

Definition ret {A} (a : A) : M A := fun c => Done A a c.

Definition bind {A B} (m : M A) (k : A → M B) : M B :=
  fun c => match m c with
           | Done _ a c' => k a c'
           | Raised _ e c' => Raised B e c'
           | Blocked _ c' => Blocked B c'
           | Stuck _ => Stuck B
           end.

Definition raise {A} (e : exn) : M A := fun c => Raised A e c.
Definition block {A} : M A := fun c => Blocked A c.
Definition emit (e : event) : M unit :=
  fun c => Done unit tt (Config (now c) (trace c ++ [e])).
Definition get : M S := fun c => Done S (now c) c.
Definition modify (f : S → S) : M unit := fun c => Done unit tt (Config (f (now c)) (trace c)).
End Monad.

Arguments config : clear implicits.
Arguments result : clear implicits.
Arguments M : clear implicits.
Arguments Done {S A}.
Arguments Raised {S A}.
Arguments Blocked {S A}.
Arguments Stuck {S A}.

Notation "x <- m ;; k" := (bind m (fun x => k))
  (at level 100, m at next level, right associativity).
Notation "m ;; k" := (bind m (fun _ => k))
  (at level 100, right associativity).

(** ** The payload: [bytes('Hello World', 'utf-8')] *)

(** A [str] is a sequence of code points. *)
Definition str_literal (s : string) : list Z :=
  map (fun a => Z.of_nat (nat_of_ascii a)) (list_ascii_of_string s).

(** UTF-8 of one code point; a lone surrogate cannot be encoded. *)
Definition utf8_point (c : Z) : option (list Z) :=
  if c <? 0x80 then Some [c]
  else if c <? 0x800 then
    Some [Z.lor 0xC0 (Z.shiftr c 6); Z.lor 0x80 (Z.land c 0x3F)]
  else if (0xD800 <=? c) && (c <=? 0xDFFF) then None
  else if c <? 0x10000 then
    Some [Z.lor 0xE0 (Z.shiftr c 12);
          Z.lor 0x80 (Z.land (Z.shiftr c 6) 0x3F);
          Z.lor 0x80 (Z.land c 0x3F)]
  else
    Some [Z.lor 0xF0 (Z.shiftr c 18);
          Z.lor 0x80 (Z.land (Z.shiftr c 12) 0x3F);
          Z.lor 0x80 (Z.land (Z.shiftr c 6) 0x3F);
          Z.lor 0x80 (Z.land c 0x3F)].

Fixpoint bytes_utf8 (s : list Z) : option (list Z) :=
  match s with
  | [] => Some []
  | c :: s' =>
      match utf8_point c, bytes_utf8 s' with
      | Some b, Some bs => Some (b ++ bs)
      | _, _ => None
      end
  end.

(** Exceptions named in an [except] clause. *)
Definition try_except {S A} (m : M S A) (caught : exn → bool) (handler : M S A) : M S A :=
  fun c => match m c with
           | Raised e c' => if caught e then handler c' else Raised e c'
           | r => r
           end.

(** *** Vocabulary: what a computation may do to the trace

    [grows P c c']: from [c] to [c'] the trace only gained events that
    satisfy [P].  [keeps Q m]: however [m] ends, it ends in a
    configuration related by [Q] to the one it started from. *)

Definition grows {S} (P : event → bool) (c c' : config S) : Prop :=
  ∃ evs, trace c' = trace c ++ evs ∧ forallb P evs = true.

Definition keeps {S A} (Q : config S → config S → Prop) (m : M S A) : Prop :=
  ∀ c, match m c with
       | Done _ c' | Raised _ c' | Blocked c' => Q c c'
       | Stuck => True
       end.


(** ** ClientHandler: one accepted connection and the thread that serves it *)

Module ClientHandler.

(** The connected socket object, as Python sees it. *)
Inductive sock_state : Set := SockOpen | SockShut | SockClosed.

(** The far end of the connection: still there, or gone, the connection
    torn down, so that the next write fails with the given exception. *)
Inductive peer_state : Set := PeerUp | PeerFailed (e : exn).

(** Where the thread running [_client_loop] stands.  [Exited None] is a
    return from the loop, [Exited (Some e)] an exception that left it. *)
Inductive thread_pc : Set :=
| AtEntry
| AtHead
| AtSend
| AtSleep
| Exited (r : option exn).

Record t := Build {
  _soc : sock_state;
  peer : peer_state;
  _client_enabled : bool;
  _client_thread : thread_pc }.

Definition set_soc (s : sock_state) (h : t) : t :=
  Build s (peer h) (_client_enabled h) (_client_thread h).
Definition set_peer (p : peer_state) (h : t) : t :=
  Build (_soc h) p (_client_enabled h) (_client_thread h).
Definition set_enabled (b : bool) (h : t) : t :=
  Build (_soc h) (peer h) b (_client_thread h).
Definition set_thread (pc : thread_pc) (h : t) : t :=
  Build (_soc h) (peer h) (_client_enabled h) pc.

(** [__init__]: the event starts cleared and the thread is started at
    once, so a new handler is alive before it has run a statement. *)
Definition __init__ : t := Build SockOpen PeerUp false AtEntry.

Definition exited (h : t) : bool :=
  match _client_thread h with Exited _ => true | _ => false end.

(** *** The socket calls the class makes *)

(** [getpeername] and [shutdown] need a connection: on one that the
    peer has torn down they raise [OSError], as they do on a socket
    object that is closed. *)
Definition getpeername : M t unit :=
  h <- get ;;
  match _soc h, peer h with
  | SockClosed, _ => raise OSError
  | _, PeerFailed _ => raise OSError
  | _, PeerUp => ret tt
  end.

Definition send (id : nat) (data : list Z) : M t unit :=
  h <- get ;;
  match _soc h with
  | SockClosed => raise OSError
  | SockShut => raise BrokenPipeError
  | SockOpen =>
      match peer h with
      | PeerUp => emit (Send id data)
      | PeerFailed e => raise e
      end
  end.

Definition shutdown (id : nat) : M t unit :=
  h <- get ;;
  match _soc h, peer h with
  | SockClosed, _ => raise OSError
  | _, PeerFailed _ => raise OSError
  | _, PeerUp => modify (set_soc SockShut) ;; emit (Shutdown id)
  end.

(** [socket.close] on an object that is already closed does nothing. *)
Definition close (id : nat) : M t unit :=
  h <- get ;;
  match _soc h with
  | SockClosed => ret tt
  | _ => modify (set_soc SockClosed) ;; emit (Close id)
  end.

(** *** [_client_loop] (lines 117-126), one statement at a time *)

Definition disconnect_class (e : exn) : bool :=
  match e with
  | ConnectionResetError | ConnectionAbortedError => true
  | _ => false
  end.

Definition bytes_ (s : list Z) : M t (list Z) :=
  match bytes_utf8 s with
  | Some b => ret b
  | None => raise UnicodeEncodeError
  end.

(** The [try] of lines 121-126 spans the write and the pause. *)
Definition in_try (id : nat) (m : M t thread_pc) : M t thread_pc :=
  try_except m disconnect_class
    (emit (Log (ClientDisconnected id)) ;; ret (Exited None)).

(** [_client_loop], resumed where the thread stands, runs one statement
    and says where the thread stands next: line 118-119 at the entry,
    the [while] condition of line 120 at the head, the write of line
    122, the pause of line 123. *)
Definition _client_loop (id : nat) (pc : thread_pc) : M t thread_pc :=
  match pc with
  | AtEntry =>
      modify (set_enabled true) ;; emit (ClientSet id) ;;
      getpeername ;; emit (Log (BeginService id)) ;;
      ret AtHead
  | AtHead =>
      h <- get ;;
      ret (if _client_enabled h then AtSend else Exited None)
  | AtSend =>
      in_try id (data <- bytes_ (str_literal "Hello World") ;;
                 send id data ;;
                 ret AtSleep)
  | AtSleep =>
      in_try id (emit (Sleep id 1) ;; ret AtHead)
  | Exited r => ret (Exited r)
  end.

(** The scheduler lets the thread run one statement.  An exception that
    leaves [_client_loop] ends the thread and nothing else. *)
Definition thread_step (id : nat) : M t unit :=
  fun c =>
    match _client_loop id (_client_thread (now c)) c with
    | Done pc c' => modify (set_thread pc) c'
    | Raised e c' =>
        (modify (set_thread (Exited (Some e))) ;; emit (ThreadDied id e)) c'
    | Blocked c' => Blocked c'
    | Stuck => Stuck
    end.

Fixpoint run_thread (n : nat) (id : nat) : M t unit :=
  match n with
  | O => ret tt
  | S n' => thread_step id ;; run_thread n' id
  end.

(** *** The methods called by the runner (lines 107-115) *)

Definition is_alive : M t bool :=
  h <- get ;; ret (negb (exited h)).

Definition clear (id : nat) : M t unit :=
  modify (set_enabled false) ;; emit (ClientClear id).

(** [Thread.join] returns once the thread has ended ... *)
Definition join_now (id : nat) : M t unit :=
  h <- get ;;
  if exited h then emit (ClientJoin id) else block.

(** ... and until then the caller waits while the thread runs.  With the
    peer and the flag left alone, a thread that has not ended after
    [join_bound] statements never ends ([wait_is_decisive]). *)
Definition join_bound : nat := 3.

Definition join (id : nat) : M t unit :=
  run_thread join_bound id ;; join_now id.

Definition cleanup (id : nat) : M t unit :=
  clear id ;;
  join id ;;
  shutdown id ;;
  close id.

(** *** The worker and its owner, interleaved

    [cleanup] as four atomic statements that the scheduler interleaves
    with the statements of the thread and with the peer going away. *)

Inductive stmt : Set := SClear | SJoin | SShutdown | SClose.

Definition exec_stmt (id : nat) (s : stmt) : M t unit :=
  match s with
  | SClear => clear id
  | SJoin => join_now id
  | SShutdown => shutdown id
  | SClose => close id
  end.

Definition cleanup_body : list stmt := [SClear; SJoin; SShutdown; SClose].

(** [todo = None]: [cleanup] has not been called. *)
Record sys := Sys { cfg : config t; todo : option (list stmt) }.

Inductive action : Set :=
| Tick                  (* the thread runs one statement *)
| PeerFails (e : exn)   (* the peer goes away *)
| Call                  (* the runner calls cleanup *)
| Next.                 (* cleanup runs its next statement *)

Definition step (id : nat) (a : action) (s : sys) : option sys :=
  match a with
  | Tick =>
      match thread_step id (cfg s) with
      | Done _ c' => Some (Sys c' (todo s))
      | _ => None
      end
  | PeerFails e =>
      Some (Sys (Config (set_peer (PeerFailed e) (now (cfg s))) (trace (cfg s))) (todo s))
  | Call =>
      match todo s with
      | None => Some (Sys (cfg s) (Some cleanup_body))
      | Some _ => None
      end
  | Next =>
      match todo s with
      | Some (st :: rest) =>
          match exec_stmt id st (cfg s) with
          | Done _ c' => Some (Sys c' (Some rest))
          | Raised _ c' => Some (Sys c' (Some []))
          | _ => None
          end
      | _ => None
      end
  end.

Fixpoint exec (id : nat) (sched : list action) (s : sys) : option sys :=
  match sched with
  | [] => Some s
  | a :: sched' =>
      match step id a s with
      | Some s' => exec id sched' s'
      | None => None
      end
  end.

Definition accepted : sys := Sys (Config __init__ []) None.

(** *** Vocabulary of the statements about a worker *)

Definition hello : list Z := [72; 101; 108; 108; 111; 32; 87; 111; 114; 108; 100].

(** What the thread of worker [id] writes to the trace ... *)
Definition thread_event (id : nat) (e : event) : bool :=
  match e with
  | ClientSet h | Send h _ | Sleep h _ | ThreadDied h _ => Nat.eqb h id
  | Log (BeginService h) | Log (ClientDisconnected h) => Nat.eqb h id
  | _ => false
  end.

(** ... and what [cleanup], called by its owner, writes. *)
Definition owner_event (id : nat) (e : event) : bool :=
  match e with
  | ClientClear h | ClientJoin h | Shutdown h | Close h => Nat.eqb h id
  | _ => false
  end.

Definition owner_events (id : nat) (tr : list event) : list event :=
  List.filter (owner_event id) tr.

Definition cleanup_events (id : nat) : list event :=
  [ClientClear id; ClientJoin id; Shutdown id; Close id].

Definition sock_at (k : nat) : sock_state :=
  match k with
  | 0 | 1 | 2 => SockOpen
  | 3 => SockShut
  | _ => SockClosed
  end%nat.

(** The invariant of the interleaving.  [k] statements of [cleanup] have
    completed; that fixes the state of the socket, and once the [join]
    has returned the thread has ended.  What is left to do are the
    remaining statements, or nothing when a statement has raised. *)
Definition inv (id : nat) (s : sys) : Prop :=
  ∃ k : nat,
    (k <= 4)%nat
    ∧ (todo s = None ∧ k = 0%nat
       ∨ todo s = Some (drop k cleanup_body)
       ∨ todo s = Some [])
    ∧ _soc (now (cfg s)) = sock_at k
    ∧ ((2 <= k)%nat → exited (now (cfg s)) = true)
    ∧ owner_events id (trace (cfg s)) = take k (cleanup_events id).

(** Every write is the eleven bytes, every pause one second. *)
Definition on_the_wire (e : event) : bool :=
  match e with
  | Send _ data => bool_decide (data = hello)
  | Sleep _ secs => secs =? 1
  | _ => true
  end.

(** A thread that keeps writing: flag set, socket open, peer there. *)
Definition steady (h : t) : Prop :=
  _soc h = SockOpen ∧ peer h = PeerUp ∧ _client_enabled h = true
  ∧ (_client_thread h = AtHead ∨ _client_thread h = AtSend ∨ _client_thread h = AtSleep).

(** A worker nobody has stopped and whose peer is there: the thread is
    about to run its first statement, or it keeps writing. *)
Definition healthy (h : t) : Prop :=
  _soc h = SockOpen ∧ peer h = PeerUp
  ∧ (_client_thread h = AtEntry ∨ steady h).

(** The thread enters its loop, the peer resets the connection, and the
    next write fails. *)
Definition lost_connection : list action :=
  [Tick; Tick; PeerFails ConnectionResetError; Tick].

(** A schedule in which the owner stops a worker in mid-loop. *)
Definition interleaved : list action :=
  [Tick; Tick; Tick; Call; Next; Tick; Tick; Next; Next; Next].

(** *** Vocabulary of the statements about what a worker writes *)

(** The writes of worker [id] on a trace, and the bytes they have handed
    to its socket, in order. *)
Definition is_send (id : nat) (e : event) : bool :=
  match e with Send h _ => Nat.eqb h id | _ => false end.

Definition sends (id : nat) (tr : list event) : nat :=
  length (List.filter (is_send id) tr).

Definition sent (id : nat) (tr : list event) : list Z :=
  flat_map (fun e => match e with
                     | Send h data => if Nat.eqb h id then data else []
                     | _ => []
                     end) tr.

(** The owner calls [cleanup] and clears the flag; the thread then runs
    [n] statements while the owner is at its [join]. *)
Definition early_cleanup (n : nat) : list action :=
  [Call; Next] ++ repeat Tick n.

(** A thread in mid-loop whose peer has reset the connection. *)
Definition writing_to_nobody : t :=
  Build SockOpen (PeerFailed ConnectionResetError) true AtSend.

End ClientHandler.

(** ** MyServer: the handle, and the runner process it starts *)

(** Python's [list.remove(x)]: the first item equal to [x] is taken out;
    [None] when there is none (a [ValueError]). *)
Fixpoint list_remove (x : nat) (l : list nat) : option (list nat) :=
  match l with
  | [] => None
  | y :: l' =>
      if Nat.eqb y x then Some l'
      else match list_remove x l' with
           | Some r => Some (y :: r)
           | None => None
           end
  end.

Definition NONBLOCKING : Z := 0.

Module MyServer.

(** The listening socket object. *)
Inductive listen_state : Set := Fresh | Bound | Listening | ListenClosed.

(** The [multiprocessing.Process] object together with the place where
    the child stands: started but not yet at line 66, in the [while]
    loop, or ended.  [Released] is the object after [Process.close]. *)
Inductive proc_state : Set :=
| NotStarted
| AtEntry
| Polling
| Terminated
| Released.

(** The handle and what its runner process owns.  [_active_clients] is
    the list of the child process, the only one that is ever written; it
    holds references, and the handlers themselves live in [handlers], at
    the position that is their identity.  Host, port and logger are
    passed on unread and are left out. *)
Record t := Build {
  _soc : listen_state;
  _server_enabled : bool;
  _server_proc : proc_state;
  _active_clients : list nat;
  handlers : list ClientHandler.t }.

Definition set_soc (s : listen_state) (w : t) : t :=
  Build s (_server_enabled w) (_server_proc w) (_active_clients w) (handlers w).
Definition set_enabled (b : bool) (w : t) : t :=
  Build (_soc w) b (_server_proc w) (_active_clients w) (handlers w).
Definition set_proc (p : proc_state) (w : t) : t :=
  Build (_soc w) (_server_enabled w) p (_active_clients w) (handlers w).
Definition set_active (l : list nat) (w : t) : t :=
  Build (_soc w) (_server_enabled w) (_server_proc w) l (handlers w).
Definition set_handlers (hs : list ClientHandler.t) (w : t) : t :=
  Build (_soc w) (_server_enabled w) (_server_proc w) (_active_clients w) hs.

Definition __init__ : t := Build Fresh false NotStarted [] [].

(** A method of handler [id], run on the object the reference names. *)
Definition on_handler {A} (id : nat) (m : M ClientHandler.t A) : M t A :=
  fun c =>
    match handlers (now c) !! id with
    | None => Stuck
    | Some h =>
        let back (c' : config ClientHandler.t) :=
          Config (set_handlers (<[id := now c']> (handlers (now c))) (now c)) (trace c') in
        match m (Config h (trace c)) with
        | Done a c' => Done a (back c')
        | Raised e c' => Raised e (back c')
        | Blocked c' => Blocked (back c')
        | Stuck => Stuck
        end
    end.

(** *** What the surroundings do during one pass of the poll loop *)

Inductive happening : Set :=
| Runs (h : nat)               (* worker thread h runs one statement *)
| Fails (h : nat) (e : exn).   (* the peer of worker h goes away *)

Record poll_input := Input {
  happenings : list happening;
  pending : bool }.            (* a connection waits to be accepted *)

Definition happen (ev : happening) : M t unit :=
  fun c =>
    match ev with
    | Runs h =>
        match handlers (now c) !! h with
        | Some _ => on_handler h (ClientHandler.thread_step h) c
        | None => ret tt c
        end
    | Fails h e =>
        match handlers (now c) !! h with
        | Some _ =>
            on_handler h (modify (ClientHandler.set_peer (ClientHandler.PeerFailed e))) c
        | None => ret tt c
        end
    end.

Fixpoint happen_all (evs : list happening) : M t unit :=
  match evs with
  | [] => ret tt
  | ev :: evs' => happen ev ;; happen_all evs'
  end.

(** *** The handle: [setup] (lines 50-55), [end] (57-63), [is_alive] (38-40) *)

(** [in_use]: the address is taken by somebody else. *)
Definition bind_ (in_use : bool) : M t unit :=
  emit Bind ;;
  w <- get ;;
  match _soc w with
  | Fresh => if in_use then raise OSError else modify (set_soc Bound)
  | _ => raise OSError
  end.

Definition listen : M t unit :=
  w <- get ;;
  match _soc w with
  | ListenClosed => raise OSError
  | _ => modify (set_soc Listening) ;; emit Listen
  end.

Definition start : M t unit :=
  w <- get ;;
  match _server_proc w with
  | NotStarted => modify (set_proc AtEntry) ;; emit ProcStart
  | Released => raise ValueError
  | _ => raise AssertionError
  end.

Definition setup (in_use : bool) : M t unit :=
  w <- get ;;
  if _server_enabled w then raise AssertionError
  else
    emit (Log SettingUp) ;;
    bind_ in_use ;;
    listen ;;
    start.

Definition is_alive : M t bool :=
  w <- get ;;
  match _server_proc w with
  | Released => raise ValueError
  | AtEntry | Polling => ret true
  | _ => ret false
  end.

Definition clear : M t unit :=
  modify (set_enabled false) ;; emit FlagClear.

Definition proc_close : M t unit :=
  w <- get ;;
  match _server_proc w with
  | AtEntry | Polling => raise ValueError
  | _ => modify (set_proc Released) ;; emit ProcClose
  end.

Definition soc_close : M t unit :=
  modify (set_soc ListenClosed) ;; emit ListenClose.

(** *** The runner: [_server_loop] (lines 65-83) *)

(** Python's [for handler in self._active_clients]: the iterator keeps
    an index into the live list and stops when the index is past the
    end.  [fuel] bounds the number of steps; [for_active] is given the
    length of the list, which is enough whenever the body does not
    lengthen it ([for_in_active_fuel]). *)
Fixpoint for_in_active (fuel i : nat) (body : nat → M t unit) : M t unit :=
  match fuel with
  | O => ret tt
  | S fuel' =>
      w <- get ;;
      match _active_clients w !! i with
      | None => ret tt
      | Some h => body h ;; for_in_active fuel' (S i) body
      end
  end.

Definition for_active (body : nat → M t unit) : M t unit :=
  w <- get ;;
  for_in_active (length (_active_clients w)) 0 body.

(** [list.remove(x)]: the first item equal to [x] goes; none is an error. *)
Definition remove (h : nat) : M t unit :=
  w <- get ;;
  match list_remove h (_active_clients w) with
  | Some l => modify (set_active l) ;; emit (Remove h)
  | None => raise ValueError
  end.

(** The body of the [for] of lines 76-79 ... *)
Definition reap_one (h : nat) : M t unit :=
  alive <- on_handler h ClientHandler.is_alive ;;
  if negb alive then
    on_handler h (ClientHandler.cleanup h) ;;
    remove h
  else ret tt.

Definition reap : M t unit := for_active reap_one.

(** ... and of the [for] of lines 81-83. *)
Definition sweep_one (h : nat) : M t unit :=
  on_handler h ClientHandler.getpeername ;;
  emit (Log (CleaningUp h)) ;;
  on_handler h (ClientHandler.cleanup h).

Definition final_sweep : M t unit := for_active sweep_one.

(** Of the three lists [select.select] returns only the first is used:
    it holds the listening socket when a connection is pending. *)
Definition select_ (readable : bool) : M t bool :=
  emit (Select NONBLOCKING) ;; ret readable.

(** [soc.accept()] and the [ClientHandler] made of what it returns; the
    [readable] list holds nothing but the listening socket, so the
    assertion of line 73 holds. *)
Definition accept : M t unit :=
  w <- get ;;
  let id := length (handlers w) in
  modify (set_handlers (handlers w ++ [ClientHandler.__init__])) ;;
  emit (Accept id) ;;
  w <- get ;;
  modify (set_active (_active_clients w ++ [id])).

Definition iteration (i : poll_input) : M t unit :=
  happen_all (happenings i) ;;
  readable <- select_ (pending i) ;;
  (if readable then accept else ret tt) ;;
  reap.

(** The [while]: [true] when the observation ends with the loop still
    running, [false] when the condition was found false. *)
Fixpoint poll_loop (inputs : list poll_input) : M t bool :=
  w <- get ;;
  if _server_enabled w then
    match inputs with
    | [] => ret true
    | i :: inputs' => iteration i ;; poll_loop inputs'
    end
  else ret false.

Definition from_loop (inputs : list poll_input) : M t bool :=
  still <- poll_loop inputs ;;
  if still then ret true else final_sweep ;; ret false.

Definition _server_loop (inputs : list poll_input) : M t bool :=
  modify (set_enabled true) ;; emit FlagSet ;;
  from_loop inputs.

(** The child process: it runs [_server_loop] from where it stands, and
    ends when the function has returned or raised and every thread it
    started has ended. *)
Definition threads_ended (w : t) : bool :=
  forallb ClientHandler.exited (handlers w).

Definition child (inputs : list poll_input) : M t unit :=
  fun c =>
    let run (m : M t bool) :=
      match m c with
      | Done true c' => modify (set_proc Polling) c'
      | Done false c' => (modify (set_proc Terminated) ;; emit ProcExit) c'
      | Raised e c' =>
          (emit (ProcDied e) ;;
           w <- get ;;
           if threads_ended w then modify (set_proc Terminated) else block) c'
      | Blocked c' => Blocked c'
      | Stuck => Stuck
      end in
    match _server_proc (now c) with
    | AtEntry => run (_server_loop inputs)
    | Polling => run (from_loop inputs)
    | _ => ret tt c
    end.

(** [Process.join]: the caller waits while the child runs. *)
Definition join (inputs : list poll_input) : M t unit :=
  w <- get ;;
  match _server_proc w with
  | NotStarted => raise AssertionError
  | Released => raise ValueError
  | _ =>
      child inputs ;;
      w <- get ;;
      match _server_proc w with
      | Terminated => emit ProcJoin
      | _ => block
      end
  end.

Definition end_ (inputs : list poll_input) : M t unit :=
  emit (Log ClosingServer) ;;
  clear ;;
  join inputs ;;
  proc_close ;;
  soc_close ;;
  emit (Log ServerClosed).

(** *** The context manager: [__enter__] (lines 42-44), [__exit__] (46-48) *)




Definition fresh : config t := Config __init__ [].

(** *** Vocabulary of the statements about the server *)

(** Events of the workers: their threads, their [cleanup], their log lines. *)
Definition sweep_event (e : event) : bool :=
  match e with
  | Log (CleaningUp _) | Log (BeginService _) | Log (ClientDisconnected _)
  | ClientClear _ | ClientJoin _ | Shutdown _ | Close _
  | ClientSet _ | Send _ _ | Sleep _ _ | ThreadDied _ _ => true
  | _ => false
  end.

(** Events of a pass through the poll loop; the readiness check has
    timeout zero. *)
Definition loop_event (e : event) : bool :=
  match e with
  | Select timeout => timeout =? 0
  | Accept _ | Remove _ => true
  | _ => sweep_event e
  end.

(** Events of the runner process as a whole. *)
Definition child_event (e : event) : bool :=
  match e with
  | FlagSet | ProcExit | ProcDied _ => true
  | _ => loop_event e
  end.

(** The runner never touches what belongs to the handle, except that it
    sets the flag. *)
Definition frame (c c' : config t) : Prop :=
  _soc (now c') = _soc (now c) ∧ _server_proc (now c') = _server_proc (now c).

Definition same_flag (c c' : config t) : Prop :=
  _server_enabled (now c') = _server_enabled (now c).

Definition runs (P : event → bool) (c c' : config t) : Prop :=
  frame c c' ∧ same_flag c c' ∧ grows P c c'.

(** How often the socket of worker [h] was closed. *)
Definition is_close (h : nat) (e : event) : bool :=
  match e with Close h' => Nat.eqb h' h | _ => false end.

Definition closes (h : nat) (tr : list event) : nat :=
  length (List.filter (is_close h) tr).

Definition sock_closed (x : ClientHandler.t) : bool :=
  match ClientHandler._soc x with ClientHandler.SockClosed => true | _ => false end.

(** The trace and the sockets agree: a socket is closed exactly when
    its one [Close] is on the trace. *)
Definition consistent (c : config t) : Prop :=
  ∀ h, closes h (trace c)
       = match handlers (now c) !! h with
         | Some x => if sock_closed x then 1%nat else 0%nat
         | None => 0%nat
         end.

(** The active set holds each worker once, and only workers whose
    socket is open. *)
Definition tracked (c : config t) : Prop :=
  NoDup (_active_clients (now c))
  ∧ ∀ h, h ∈ _active_clients (now c) →
         ∃ x, handlers (now c) !! h = Some x
              ∧ ClientHandler._soc x = ClientHandler.SockOpen.

Definition wf (c : config t) : Prop := consistent c ∧ tracked c.

Definition open_in (c : config t) (h : nat) : Prop :=
  ∃ x, handlers (now c) !! h = Some x
       ∧ ClientHandler._soc x = ClientHandler.SockOpen.

(** Worker [h] has been cleaned up: thread ended, socket closed. *)
Definition closed_in (c : config t) (h : nat) : Prop :=
  ∃ x, handlers (now c) !! h = Some x
       ∧ ClientHandler._soc x = ClientHandler.SockClosed
       ∧ ClientHandler.exited x = true.

(** Nothing was accepted, removed or closed between [c] and [c']. *)
Definition calm (c c' : config t) : Prop :=
  _active_clients (now c') = _active_clients (now c)
  ∧ (∀ k, closes k (trace c') = closes k (trace c))
  ∧ (∀ k, ClientHandler._soc <$> handlers (now c') !! k
          = ClientHandler._soc <$> handlers (now c) !! k).

Definition same_active (c c' : config t) : Prop :=
  _active_clients (now c') = _active_clients (now c).

Definition same_others (h : nat) (c c' : config t) : Prop :=
  ∀ k, k ≠ h → handlers (now c') !! k = handlers (now c) !! k.

(** A [for] over a list that the body leaves alone. *)
Fixpoint each (l : list nat) (body : nat → M t unit) : M t unit :=
  match l with
  | [] => ret tt
  | h :: l' => body h ;; each l' body
  end.

(** What the child process as a whole does to the handle's state. *)
Definition child_rel (c c' : config t) : Prop :=
  _soc (now c') = _soc (now c) ∧ grows child_event c c'.


(** *** Some runs of the model *)

(** The configuration in which a computation ended. *)
Definition after {A} (r : result t A) : config t :=
  match r with
  | Done _ c | Raised _ c | Blocked c => c
  | Stuck => fresh
  end.

Definition idle : poll_input := Input [] false.
Definition connect : poll_input := Input [] true.

(** [setup] has returned; the child has not run yet. *)
Definition started : config t := after (setup false fresh).

(** Two clients have connected and both workers are in their loops. *)
Definition arrivals : list poll_input :=
  [connect; connect; Input [Runs 0; Runs 0; Runs 1; Runs 1] false].

Definition serving : config t := after (child arrivals started).

(** Both peers reset their connections, both threads notice and end,
    and the runner makes its next pass. *)
Definition both_gone : poll_input :=
  Input [Fails 0 ConnectionResetError; Fails 1 ConnectionResetError;
         Runs 0; Runs 1] false.

(** That pass, at the point where its reap scan begins. *)
Definition before_scan : config t :=
  after ((happen_all (happenings both_gone) ;; select_ (pending both_gone)) serving).

(** *** Vocabulary of the statements about the active set *)

Definition dead_in (c : config t) (h : nat) : Prop :=
  ∃ x, handlers (now c) !! h = Some x ∧ ClientHandler.exited x = true.

Definition alive_in (c : config t) (h : nat) : Prop :=
  ∃ x, handlers (now c) !! h = Some x ∧ ClientHandler.exited x = false.

(** The socket of worker [h] is open and its peer is there. *)
Definition up_in (c : config t) (h : nat) : Prop :=
  ∃ x, handlers (now c) !! h = Some x
       ∧ ClientHandler._soc x = ClientHandler.SockOpen
       ∧ ClientHandler.peer x = ClientHandler.PeerUp.

(** Nobody has gone away: the bookkeeping is intact, and every worker
    ever created is in the active set, its connection up and its
    thread running. *)
Definition thriving (c : config t) : Prop :=
  wf c
  ∧ ∀ h x, handlers (now c) !! h = Some x →
           h ∈ _active_clients (now c) ∧ ClientHandler.healthy x.

(** Passes during which no peer goes away. *)
Definition no_loss (ev : happening) : bool :=
  match ev with Fails _ _ => false | Runs _ => true end.

Definition peaceful (inputs : list poll_input) : bool :=
  forallb (fun i => forallb no_loss (happenings i)) inputs.

(** Every thread of the active set has run its first statement. *)
Definition past_entry (c : config t) : Prop :=
  ∀ h x, h ∈ _active_clients (now c) → handlers (now c) !! h = Some x →
         ClientHandler._client_thread x ≠ ClientHandler.AtEntry.

(** No worker was created between [c] and [c']. *)
Definition same_size (c c' : config t) : Prop :=
  length (handlers (now c')) = length (handlers (now c)).

(** The passes that find a connection waiting. *)
Definition pending_count (inputs : list poll_input) : nat :=
  length (List.filter pending inputs).

(** *** More runs of the model *)

(** A third client connects while the first two are served. *)
Definition more_arrivals : list poll_input :=
  [connect; Input [Runs 2; Runs 0; Runs 2; Runs 1] false; idle].


(** Two workers are in their loops and the peer of the first resets its
    connection. *)
Definition one_gone : config t :=
  after (happen (Fails 0 ConnectionResetError) serving).

(** [end] has then cleared the flag; the runner is about to notice. *)
Definition stopping : config t := after (clear one_gone).


(** A handle whose [end] has returned. *)
Definition ended_handle : config t := after (end_ [] serving).

End MyServer.

(** * Properties of the worker *)

Lemma payload_bytes :
  bytes_utf8 (str_literal "Hello World") = Some ClientHandler.hello.
Proof. vm_compute. reflexivity. Qed.

Ltac trace_eq :=
  cbn; rewrite <- ?app_assoc; first [reflexivity | symmetry; apply app_nil_r].

Section ThreadSteps.
Import ClientHandler.

(** One statement of the thread: it always completes, touches neither
    the socket object nor the peer, writes only its own events, and does
    nothing at all once the thread has ended. *)
Lemma thread_step_spec id c :
  ∃ c' evs,
    thread_step id c = Done tt c'
    ∧ trace c' = trace c ++ evs
    ∧ forallb (thread_event id) evs = true
    ∧ forallb on_the_wire evs = true
    ∧ _soc (now c') = _soc (now c)
    ∧ (exited (now c) = true → now c' = now c ∧ evs = []).
Proof.
  destruct c as [[s p f pc] tr].
  destruct pc, s, p as [|[]], f;
    (eexists _, _; split; [ cbv -[app]; reflexivity | ]; split; [trace_eq |];
     cbn; rewrite ?Nat.eqb_refl; repeat split; try discriminate).
Qed.

Lemma thread_not_owner id e : thread_event id e = true → owner_event id e = false.
Proof. destruct e as [[]| | | | | | | | | | | | | | | | | | | | |]; simpl; congruence. Qed.

Lemma owner_events_app id tr evs :
  owner_events id (tr ++ evs) = owner_events id tr ++ owner_events id evs.
Proof. apply List.filter_app. Qed.

Lemma owner_events_thread id evs :
  forallb (thread_event id) evs = true → owner_events id evs = [].
Proof.
  induction evs as [|e evs IH]; simpl; [reflexivity|].
  intros [He Hevs]%andb_prop. rewrite (thread_not_owner _ _ He). auto.
Qed.

Lemma inv_accepted id : inv id accepted.
Proof. exists 0%nat. simpl. repeat split; auto; lia. Qed.

Lemma step_inv id a s s' : inv id s → step id a s = Some s' → inv id s'.
Proof.
  intros (k & Hk & Htd & Hsoc & Hex & Hown) Hstep.
  destruct s as [c td]; simpl in *.
  destruct a; simpl in Hstep.
  - destruct (thread_step_spec id c) as (c' & evs & Hts & Htr & Hev & _ & Hs & Hstable).
    rewrite Hts in Hstep. injection Hstep as <-. exists k; simpl.
    split; [exact Hk|]. split; [exact Htd|]. split; [congruence|]. split.
    + intros Hk2. destruct (Hstable (Hex Hk2)) as [-> _]. auto.
    + rewrite Htr, owner_events_app, (owner_events_thread _ _ Hev), app_nil_r. exact Hown.
  - injection Hstep as <-. exists k; simpl. repeat split; auto.
  - destruct td; [discriminate|]. injection Hstep as <-.
    destruct Htd as [[_ ->]|[[=]|[=]]].
    exists 0%nat; simpl. repeat split; auto; lia.
  - destruct td as [[|st rest]|]; try discriminate.
    destruct Htd as [[[=] _]|[Htd|[=]]].
    destruct c as [[so p f pc] tr]; simpl in *.
    destruct k as [|[|[|[|k]]]];
      [..|exfalso; simpl in Htd; rewrite drop_nil in Htd; discriminate];
      simpl in Htd; inversion Htd; subst; clear Htd; simpl in *; subst.
    + injection Hstep as <-. exists 1%nat; simpl.
      split; [lia|]. split; [auto|]. split; [reflexivity|]. split; [lia|].
      rewrite owner_events_app, Hown. simpl. rewrite Nat.eqb_refl. reflexivity.
    + destruct pc; try discriminate. injection Hstep as <-.
      exists 2%nat; simpl.
      split; [lia|]. split; [auto|]. split; [reflexivity|]. split; [reflexivity|].
      rewrite owner_events_app, Hown. simpl. rewrite Nat.eqb_refl. reflexivity.
    + destruct p as [|e]; simpl in Hstep; injection Hstep as <-.
      * exists 3%nat; simpl.
        split; [lia|]. split; [auto|]. split; [reflexivity|]. split; [intros _; apply Hex; lia|].
        rewrite owner_events_app, Hown. simpl. rewrite Nat.eqb_refl. reflexivity.
      * exists 2%nat; simpl.
        split; [lia|]. split; [auto|]. split; [reflexivity|]. split; [exact Hex|]. exact Hown.
    + injection Hstep as <-. exists 4%nat; simpl.
      split; [lia|]. split; [auto|]. split; [reflexivity|]. split; [intros _; apply Hex; lia|].
      rewrite owner_events_app, Hown. simpl. rewrite Nat.eqb_refl. reflexivity.
Qed.

Lemma exec_inv id sched : ∀ s s', inv id s → exec id sched s = Some s' → inv id s'.
Proof.
  induction sched as [|a sched IH]; simpl; intros s s' Hs.
  - intros [= <-]. exact Hs.
  - destruct (step id a s) as [s1|] eqn:Ha; [|discriminate].
    apply IH. eapply step_inv; eauto.
Qed.

End ThreadSteps.

Section JoinBound.
Import ClientHandler.

Lemma run_thread_done n id : ∀ c, ∃ c', run_thread n id c = Done tt c'.
Proof.
  induction n as [|n IH]; intros c; simpl; [eexists; reflexivity|].
  unfold bind. destruct (thread_step_spec id c) as (c1 & _ & -> & _). apply IH.
Qed.

(** [cleanup] is one schedule of the interleaving: the owner clears the
    flag, the thread runs while the owner waits, and the remaining three
    statements follow. *)
Lemma cleanup_as_schedule id c c' :
  cleanup id c = Done tt c' →
  exec id (Call :: Next :: repeat Tick join_bound ++ [Next; Next; Next]) (Sys c None)
  = Some (Sys c' (Some [])).
Proof.
  intros H. unfold cleanup, join, join_bound in H. simpl in H. unfold bind at 1 2 3 in H.
  change (clear id c)
    with (Done tt (Config (set_enabled false (now c)) (trace c ++ [ClientClear id]))) in H.
  cbv iota beta in H. set (c0 := Config _ _) in H.
  unfold bind at 1 2 3 in H.
  destruct (thread_step_spec id c0) as (c1 & _ & H1 & _).
  destruct (thread_step_spec id c1) as (c2 & _ & H2 & _).
  destruct (thread_step_spec id c2) as (c3 & _ & H3 & _).
  rewrite H1, H2, H3 in H. unfold ret in H.
  destruct (join_now id c3) as [[] c4| | |] eqn:Hj; try discriminate.
  unfold bind in H.
  destruct (shutdown id c4) as [[] c5| | |] eqn:Hs; try discriminate.
  destruct (close id c5) as [[] c6| | |] eqn:Hc; try discriminate.
  injection H as <-.
  cbn [exec repeat app join_bound].
  change (step id Call (Sys c None)) with (Some (Sys c (Some cleanup_body))). cbv iota.
  change (step id Next (Sys c (Some cleanup_body)))
    with (Some (Sys c0 (Some [SJoin; SShutdown; SClose]))). cbv iota.
  unfold step at 1; cbn [cfg todo]; rewrite H1.
  unfold step at 1; cbn [cfg todo]; rewrite H2.
  unfold step at 1; cbn [cfg todo]; rewrite H3.
  unfold step at 1; cbn [cfg todo exec_stmt]; rewrite Hj.
  unfold step at 1; cbn [cfg todo exec_stmt]; rewrite Hs.
  unfold step at 1; cbn [cfg todo exec_stmt]; rewrite Hc.
  reflexivity.
Qed.

Lemma steady_step id c c' : steady (now c) → thread_step id c = Done tt c' → steady (now c').
Proof.
  destruct c as [[s p f pc] tr]. intros (Hs & Hp & Hf & Hpc); simpl in *; subst.
  destruct Hpc as [->|[->| ->]]; cbv -[app]; intros [= <-]; cbv; auto 10.
Qed.

Lemma steady_after_wait id c c3 :
  run_thread join_bound id c = Done tt c3 → exited (now c3) = false → steady (now c3).
Proof.
  destruct c as [[s p f pc] tr].
  destruct pc, s, p as [|[]], f; cbv -[app]; intros [= <-]; cbv; try discriminate; auto 10.
Qed.

Lemma wait_is_decisive id c c3 :
  run_thread join_bound id c = Done tt c3 → exited (now c3) = false →
  ∀ n cn, run_thread n id c3 = Done tt cn → exited (now cn) = false.
Proof.
  intros H3 Hne n. pose proof (steady_after_wait _ _ _ H3 Hne) as Hst. clear H3 Hne.
  revert c3 Hst. induction n as [|n IH]; intros c3 Hst cn; simpl.
  - intros [= <-]. destruct Hst as (_ & _ & _ & Hpc). unfold exited.
    destruct Hpc as [->|[->| ->]]; reflexivity.
  - unfold bind. destruct (thread_step_spec id c3) as (c4 & _ & Hs & _). rewrite Hs.
    apply IH. eapply steady_step; eauto.
Qed.
End JoinBound.

Section Interleaving.
Import ClientHandler.

Lemma owner_on_the_wire id e : owner_event id e = true → on_the_wire e = true.
Proof. destruct e; simpl; congruence. Qed.

Lemma forallb_owner_on_the_wire id evs :
  forallb (owner_event id) evs = true → forallb on_the_wire evs = true.
Proof.
  induction evs as [|e evs IH]; simpl; [reflexivity|].
  intros [He Hevs]%andb_prop. rewrite (owner_on_the_wire _ _ He). auto.
Qed.

(** A statement of [cleanup] writes only events of the owner. *)
Lemma exec_stmt_spec id st c :
  match exec_stmt id st c with
  | Done _ c' | Raised _ c' | Blocked c' =>
      ∃ evs, trace c' = trace c ++ evs ∧ forallb (owner_event id) evs = true
  | Stuck => False
  end.
Proof.
  destruct c as [[s p f pc] tr].
  destruct st, s, p, pc; cbv -[app Nat.eqb];
    (eexists; split; [trace_eq | cbn; rewrite ?Nat.eqb_refl; reflexivity]).
Qed.

Lemma step_on_the_wire id a s s' :
  step id a s = Some s' →
  forallb on_the_wire (trace (cfg s)) = true →
  forallb on_the_wire (trace (cfg s')) = true.
Proof.
  destruct s as [c td]. destruct a; simpl.
  - destruct (thread_step_spec id c) as (c' & evs & -> & Htr & _ & Hw & _).
    intros [= <-] H. simpl. rewrite Htr, forallb_app, H, Hw. reflexivity.
  - intros [= <-]. auto.
  - destruct td; intros [= <-]. auto.
  - destruct td as [[|st rest]|]; try discriminate.
    pose proof (exec_stmt_spec id st c) as Hst.
    destruct (exec_stmt id st c) as [[] c'|e c'|c'|]; try discriminate;
      destruct Hst as (evs & Htr & Hev); intros [= <-] H; simpl;
      rewrite Htr, forallb_app, H, (forallb_owner_on_the_wire _ _ Hev); reflexivity.
Qed.

Lemma exec_on_the_wire id sched : ∀ s s',
  exec id sched s = Some s' →
  forallb on_the_wire (trace (cfg s)) = true →
  forallb on_the_wire (trace (cfg s')) = true.
Proof.
  induction sched as [|a sched IH]; simpl; intros s s'.
  - intros [= <-]. auto.
  - destruct (step id a s) as [s1|] eqn:Ha; [|discriminate].
    intros H Hs. eapply IH; eauto. eapply step_on_the_wire; eauto.
Qed.

(** What a completed [cleanup] has done, in order. *)
Lemma cleanup_done id c c' :
  cleanup id c = Done tt c' →
  ∃ evs,
    trace c' = trace c ++ ClientClear id :: evs ++ [ClientJoin id; Shutdown id; Close id]
    ∧ forallb (thread_event id) evs = true
    ∧ exited (now c') = true
    ∧ _soc (now c') = SockClosed.
Proof.
  intros H. unfold cleanup, join, join_bound in H. simpl in H. unfold bind at 1 2 3 in H.
  change (clear id c)
    with (Done tt (Config (set_enabled false (now c)) (trace c ++ [ClientClear id]))) in H.
  cbv iota beta in H. set (c0 := Config _ _) in H.
  unfold bind at 1 2 3 in H.
  destruct (thread_step_spec id c0) as (c1 & e1 & H1 & T1 & E1 & _).
  destruct (thread_step_spec id c1) as (c2 & e2 & H2 & T2 & E2 & _).
  destruct (thread_step_spec id c2) as (c3 & e3 & H3 & T3 & E3 & _).
  rewrite H1, H2, H3 in H. unfold ret, bind in H.
  exists (e1 ++ e2 ++ e3).
  assert (Hc3 : trace c3 = trace c ++ ClientClear id :: e1 ++ e2 ++ e3).
  { rewrite T3, T2, T1. subst c0. simpl. rewrite <- !app_assoc. reflexivity. }
  clear H1 H2 H3 T1 T2 T3.
  destruct c3 as [[s p f pc] tr3]; simpl in Hc3; subst tr3.
  destruct c as [h0 tr0]; cbn [trace now] in *.
  destruct pc, s, p; try discriminate; cbv -[app] in H; injection H as <-;
    (split; [cbn [trace]; rewrite <- !app_assoc; cbn [app]; rewrite <- !app_assoc; reflexivity|]);
    rewrite !forallb_app, E1, E2, E3; auto.
Qed.

(** C2. A worker's socket is never shut down or closed while its loop is
    still executing: in every interleaving of the thread, the peer and
    [cleanup], a socket that is no longer open belongs to a thread that
    has ended, and the calls of [cleanup] appear in the order clear,
    join, shutdown, close; a [cleanup] that returns has cleared the
    flag, let the thread run to its end, joined it, and only then shut
    down and closed the socket. *)
Theorem cleanup_joins_before_closing id :
  (∀ sched s,
      exec id sched accepted = Some s →
      (_soc (now (cfg s)) ≠ SockOpen → exited (now (cfg s)) = true)
      ∧ ∃ k, owner_events id (trace (cfg s)) = take k (cleanup_events id))
  ∧ (∀ c c',
      cleanup id c = Done tt c' →
      exited (now c') = true
      ∧ ∃ evs,
          trace c' = trace c ++ ClientClear id :: evs ++ [ClientJoin id; Shutdown id; Close id]
          ∧ forallb (thread_event id) evs = true).
Proof.
  split.
  - intros sched s Hs.
    destruct (exec_inv id sched _ _ (inv_accepted id) Hs) as (k & _ & _ & Hsoc & Hex & Hown).
    split; [|eauto].
    intros Hne. apply Hex.
    destruct k as [|[|[|k]]]; simpl in Hsoc; try congruence; lia.
  - intros c c' H. destruct (cleanup_done _ _ _ H) as (evs & Htr & Hev & Hex & _). eauto.
Qed.

Lemma cleanup_joins_before_closing_witness :
  ∃ s, exec 0 interleaved accepted = Some s
       ∧ (_soc (now (cfg s)) ≠ SockOpen → exited (now (cfg s)) = true)
       ∧ ∃ k, owner_events 0 (trace (cfg s)) = take k (cleanup_events 0).
Proof.
  eexists. split; [vm_compute; reflexivity|].
  apply (proj1 (cleanup_joins_before_closing 0) interleaved). vm_compute. reflexivity.
Defined.

End Interleaving.

Section WorkerClaims.
Import ClientHandler.

(** [cleanup] of a worker whose thread has ended and whose peer has
    gone: it does not wait, and it fails at its [shutdown]. *)
Lemma cleanup_lost_peer id h tr e :
  exited h = true → _soc h = SockOpen → peer h = PeerFailed e →
  cleanup id (Config h tr)
  = Raised OSError (Config (set_enabled false h) (tr ++ [ClientClear id; ClientJoin id])).
Proof.
  destruct h as [s p f pc]; simpl. intros Hex -> ->.
  destruct pc; try discriminate.
  cbv -[app]. rewrite <- ?app_assoc. reflexivity.
Qed.

(** C9, against the code.  The peer of a worker resets the connection;
    the next write fails, the loop returns and the thread has ended.
    [cleanup] on this worker does not wait: it clears the flag and its
    [join] returns with no step of the thread in between.  But its
    [shutdown] raises [OSError], the [close] of line 115 is not reached,
    and the socket is left open. *)
Theorem cleanup_of_exited_worker_raises :
  ∃ h tr,
    exec 0 lost_connection accepted = Some (Sys (Config h tr) None)
    ∧ exited h = true
    ∧ cleanup 0 (Config h tr)
      = Raised OSError (Config (set_enabled false h) (tr ++ [ClientClear 0; ClientJoin 0]))
    ∧ exec 0 [Call; Next; Next; Next] (Sys (Config h tr) None)
      = Some (Sys (Config (set_enabled false h) (tr ++ [ClientClear 0; ClientJoin 0]))
                (Some []))
    ∧ _soc (set_enabled false h) = SockOpen
    ∧ owner_events 0 (tr ++ [ClientClear 0; ClientJoin 0]) = [ClientClear 0; ClientJoin 0].
Proof.
  eexists _, _. split; [vm_compute; reflexivity|].
  split; [reflexivity|].
  split; [apply (cleanup_lost_peer 0 _ _ ConnectionResetError); reflexivity|].
  repeat split.
Qed.

(** C5. A write that fails with [ConnectionResetError] or
    [ConnectionAbortedError] ends the loop by a plain return: the thread
    ends without an exception, only the log line is written and the
    socket is left as it is, for the reap step to close.  A write that
    fails with any other exception ends the thread with that exception. *)
Theorem failed_write_ends_loop id h tr e :
  _client_thread h = AtSend →
  send id hello (Config h tr) = Raised e (Config h tr) →
  (e = ConnectionResetError ∨ e = ConnectionAbortedError →
   thread_step id (Config h tr)
   = Done tt (Config (set_thread (Exited None) h) (tr ++ [Log (ClientDisconnected id)])))
  ∧ (e ≠ ConnectionResetError → e ≠ ConnectionAbortedError →
     thread_step id (Config h tr)
     = Done tt (Config (set_thread (Exited (Some e)) h) (tr ++ [ThreadDied id e]))).
Proof.
  destruct h as [s p f pc]; simpl. intros -> Hsend.
  assert (Hstmt : _client_loop id AtSend (Config (Build s p f AtSend) tr)
                  = in_try id (fun c => Raised e c) (Config (Build s p f AtSend) tr)).
  { unfold _client_loop, in_try, try_except, bind at 1. unfold bytes_.
    rewrite payload_bytes. unfold ret at 1. unfold bind at 1. rewrite Hsend. reflexivity. }
  unfold thread_step. cbn [now _client_thread]. rewrite Hstmt.
  unfold in_try, try_except. split.
  - intros [-> | ->]; reflexivity.
  - intros H1 H2. destruct e; try congruence; reflexivity.
Qed.

Lemma failed_write_ends_loop_witness :
  let h := Build SockOpen (PeerFailed ConnectionResetError) true AtSend in
  let g := Build SockOpen (PeerFailed BrokenPipeError) true AtSend in
  thread_step 0 (Config h [])
  = Done tt (Config (set_thread (Exited None) h) ([] ++ [Log (ClientDisconnected 0)]))
  ∧ thread_step 0 (Config g [])
    = Done tt (Config (set_thread (Exited (Some BrokenPipeError)) g)
                 ([] ++ [ThreadDied 0 BrokenPipeError])).
Proof.
  split.
  - apply (proj1 (failed_write_ends_loop 0
                    (Build SockOpen (PeerFailed ConnectionResetError) true AtSend) []
                    ConnectionResetError eq_refl eq_refl)).
    left. reflexivity.
  - apply (proj2 (failed_write_ends_loop 0
                    (Build SockOpen (PeerFailed BrokenPipeError) true AtSend) []
                    BrokenPipeError eq_refl eq_refl)); discriminate.
Defined.



End WorkerClaims.

(** * Properties of the server *)

Section KeepsLaws.
Context {S : Type} (Q : config S → config S → Prop).
Hypothesis Q_refl : ∀ c, Q c c.
Hypothesis Q_trans : ∀ c1 c2 c3, Q c1 c2 → Q c2 c3 → Q c1 c3.

Lemma keeps_ret {A} (a : A) : keeps Q (ret a).
Proof using Q_refl. intros c. apply Q_refl. Qed.

Lemma keeps_raise {A} e : keeps Q (@raise S A e).
Proof using Q_refl. intros c. apply Q_refl. Qed.

Lemma keeps_block {A} : keeps Q (@block S A).
Proof using Q_refl. intros c. apply Q_refl. Qed.

Lemma keeps_get : keeps Q (@get S).
Proof using Q_refl. intros c. apply Q_refl. Qed.

Lemma keeps_bind {A B} (m : M S A) (k : A → M S B) :
  keeps Q m → (∀ a, keeps Q (k a)) → keeps Q (bind m k).
Proof using Q_trans.
  intros Hm Hk c. unfold bind. specialize (Hm c).
  destruct (m c) as [a c1|e c1|c1|]; auto.
  specialize (Hk a c1). destruct (k a c1); eauto.
Qed.

Lemma keeps_try_except {A} (m : M S A) caught handler :
  keeps Q m → keeps Q handler → keeps Q (try_except m caught handler).
Proof using Q_trans.
  intros Hm Hh c. unfold try_except. specialize (Hm c).
  destruct (m c) as [a c1|e c1|c1|]; auto.
  destruct (caught e); auto.
  specialize (Hh c1). destruct (handler c1); eauto.
Qed.
End KeepsLaws.

Lemma grows_refl {S} P (c : config S) : grows P c c.
Proof. exists []. split; [symmetry; apply app_nil_r | reflexivity]. Qed.

Lemma grows_trans {S} P (c1 c2 c3 : config S) :
  grows P c1 c2 → grows P c2 c3 → grows P c1 c3.
Proof.
  intros (e1 & H1 & P1) (e2 & H2 & P2). exists (e1 ++ e2). split.
  - rewrite H2, H1, app_assoc. reflexivity.
  - rewrite forallb_app, P1, P2. reflexivity.
Qed.

Lemma grows_weaken {S} (P P' : event → bool) (c c' : config S) :
  (∀ e, P e = true → P' e = true) → grows P c c' → grows P' c c'.
Proof.
  intros HP (evs & Htr & Hev). exists evs. split; [exact Htr|].
  rewrite forallb_forall in *. auto.
Qed.

Lemma keeps_weaken {S A} (Q Q' : config S → config S → Prop) (m : M S A) :
  (∀ c c', Q c c' → Q' c c') → keeps Q m → keeps Q' m.
Proof. intros HQ Hm c. specialize (Hm c). destruct (m c); auto. Qed.

Lemma keeps_emit {S} P e : P e = true → keeps (@grows S P) (emit e).
Proof. intros He c. exists [e]. simpl. rewrite He. auto. Qed.

Lemma keeps_modify_grows {S} P (f : S → S) : keeps (grows P) (modify f).
Proof. intros c. exists []. split; [symmetry; apply app_nil_r | reflexivity]. Qed.

Create HintDb keeps.
#[local] Hint Resolve grows_refl grows_trans : keeps.
#[local] Hint Resolve keeps_ret keeps_raise keeps_block keeps_get keeps_emit
  keeps_modify_grows : keeps.

Section WorkerTrace.
Import ClientHandler.

Lemma thread_is_sweep id e : thread_event id e = true → MyServer.sweep_event e = true.
Proof. destruct e as [[]| | | | | | | | | | | | | | | | | | | | |]; simpl; congruence. Qed.

Lemma owner_is_sweep id e : owner_event id e = true → MyServer.sweep_event e = true.
Proof. destruct e; simpl; congruence. Qed.

Lemma keeps_thread_step id : keeps (grows MyServer.sweep_event) (thread_step id).
Proof.
  intros c. destruct (thread_step_spec id c) as (c' & evs & -> & Htr & Hev & _).
  exists evs. split; [exact Htr|].
  rewrite forallb_forall in *. eauto using thread_is_sweep.
Qed.

Lemma keeps_run_thread n id : keeps (grows MyServer.sweep_event) (run_thread n id).
Proof.
  induction n as [|n IH]; simpl.
  - apply keeps_ret; auto with keeps.
  - apply keeps_bind; eauto using keeps_thread_step with keeps.
Qed.

Ltac keeps_step :=
  first [ apply keeps_bind; [eauto with keeps | | intros ?]
        | apply keeps_ret | apply keeps_raise | apply keeps_block | apply keeps_get
        | apply keeps_emit; reflexivity | apply keeps_modify_grows
        | apply keeps_run_thread | apply keeps_thread_step
        | match goal with |- keeps _ (match ?x with _ => _ end) => destruct x end
        | match goal with |- keeps _ (if ?x then _ else _) => destruct x end ];
  eauto with keeps.

Lemma keeps_cleanup id : keeps (grows MyServer.sweep_event) (cleanup id).
Proof.
  unfold cleanup, clear, join, join_now, shutdown, close.
  repeat keeps_step.
Qed.

Lemma keeps_getpeername : keeps (grows MyServer.sweep_event) getpeername.
Proof. unfold getpeername. repeat keeps_step. Qed.

Lemma keeps_is_alive : keeps (grows MyServer.sweep_event) is_alive.
Proof. unfold is_alive. repeat keeps_step. Qed.
End WorkerTrace.
#[local] Hint Resolve keeps_thread_step keeps_run_thread keeps_cleanup
  keeps_getpeername keeps_is_alive : keeps.

Section ServerTrace.
Import MyServer.

Lemma runs_refl P c : runs P c c.
Proof. repeat split. apply grows_refl. Qed.

Lemma runs_trans P c1 c2 c3 : runs P c1 c2 → runs P c2 c3 → runs P c1 c3.
Proof.
  intros ([] & Hf1 & G1) ([] & Hf2 & G2). unfold same_flag in *.
  repeat split; try congruence. eapply grows_trans; eauto.
Qed.

Lemma runs_weaken (P P' : event → bool) c c' :
  (∀ e, P e = true → P' e = true) → runs P c c' → runs P' c c'.
Proof. intros HP (F & Fl & G). split; [|split]; auto. eapply grows_weaken; eauto. Qed.

Lemma sweep_is_loop e : sweep_event e = true → loop_event e = true.
Proof. destruct e; simpl; congruence. Qed.

Lemma loop_is_child e : loop_event e = true → child_event e = true.
Proof. destruct e; simpl; congruence. Qed.

Lemma keeps_runs_emit P e : P e = true → keeps (runs P) (emit e).
Proof. intros He c. repeat split. apply (keeps_emit P e He c). Qed.

Lemma keeps_set_active P l : keeps (runs P) (modify (set_active l)).
Proof. intros c. repeat split. apply (keeps_modify_grows P _ c). Qed.

Lemma keeps_set_handlers P hs : keeps (runs P) (modify (set_handlers hs)).
Proof. intros c. repeat split. apply (keeps_modify_grows P _ c). Qed.

Lemma keeps_on_handler {A} P h (m : M ClientHandler.t A) :
  keeps (grows P) m → keeps (runs P) (on_handler h m).
Proof.
  intros Hm c. unfold on_handler.
  destruct (handlers (now c) !! h) as [x|]; [|exact I].
  specialize (Hm (Config x (trace c))).
  destruct (m (Config x (trace c))); try exact I; repeat split; exact Hm.
Qed.

Ltac runs_step :=
  first [ apply keeps_bind; [apply runs_trans | | intros ?]
        | apply keeps_ret; apply runs_refl
        | apply keeps_raise; apply runs_refl
        | apply keeps_block; apply runs_refl
        | apply keeps_get; apply runs_refl
        | apply keeps_runs_emit; reflexivity
        | apply keeps_set_active | apply keeps_set_handlers
        | apply keeps_on_handler; solve [eauto with keeps]
        | match goal with |- keeps _ (match ?x with _ => _ end) => destruct x end
        | match goal with |- keeps _ (if ?x then _ else _) => destruct x end ].

Lemma keeps_for_in_active Q (body : nat → M t unit) :
  (∀ c, Q c c) → (∀ c1 c2 c3, Q c1 c2 → Q c2 c3 → Q c1 c3) →
  (∀ h, keeps Q (body h)) →
  ∀ fuel i, keeps Q (for_in_active fuel i body).
Proof.
  intros Qr Qt Hb fuel. induction fuel as [|fuel IH]; intros i; simpl.
  - apply keeps_ret; auto.
  - apply keeps_bind; [auto | apply keeps_get; auto | intros w].
    destruct (_active_clients w !! i); [|apply keeps_ret; auto].
    apply keeps_bind; auto.
Qed.

Lemma keeps_for_active Q (body : nat → M t unit) :
  (∀ c, Q c c) → (∀ c1 c2 c3, Q c1 c2 → Q c2 c3 → Q c1 c3) →
  (∀ h, keeps Q (body h)) → keeps Q (for_active body).
Proof.
  intros Qr Qt Hb. unfold for_active.
  apply keeps_bind; [auto | apply keeps_get; auto | intros w].
  apply keeps_for_in_active; auto.
Qed.

Lemma keeps_happen ev : keeps (runs sweep_event) (happen ev).
Proof.
  intros c. unfold happen. destruct ev as [h|h e];
    (destruct (handlers (now c) !! h); [|apply runs_refl]).
  - apply keeps_on_handler. auto with keeps.
  - apply keeps_on_handler. apply keeps_modify_grows.
Qed.

Lemma keeps_happen_all evs : keeps (runs sweep_event) (happen_all evs).
Proof.
  induction evs as [|ev evs IH]; simpl; [apply keeps_ret, runs_refl|].
  apply keeps_bind; [apply runs_trans | apply keeps_happen | intros _; exact IH].
Qed.

Lemma keeps_sweep_one h : keeps (runs sweep_event) (sweep_one h).
Proof. unfold sweep_one. repeat runs_step. Qed.

Lemma keeps_final_sweep : keeps (runs sweep_event) final_sweep.
Proof.
  apply keeps_for_active; [apply runs_refl | apply runs_trans | apply keeps_sweep_one].
Qed.

Lemma keeps_reap_one h : keeps (runs loop_event) (reap_one h).
Proof.
  unfold reap_one, remove. repeat runs_step.
  all: eapply keeps_weaken; [intros ? ?; apply runs_weaken, sweep_is_loop|];
    apply keeps_on_handler; auto with keeps.
Qed.

Lemma keeps_reap : keeps (runs loop_event) reap.
Proof.
  apply keeps_for_active; [apply runs_refl | apply runs_trans | apply keeps_reap_one].
Qed.

Lemma keeps_iteration i : keeps (runs loop_event) (iteration i).
Proof.
  unfold iteration.
  apply keeps_bind; [apply runs_trans| |intros _].
  { eapply keeps_weaken; [intros ? ?; apply runs_weaken, sweep_is_loop|].
    apply keeps_happen_all. }
  apply keeps_bind; [apply runs_trans| |intros readable].
  { unfold select_. repeat runs_step. }
  apply keeps_bind; [apply runs_trans| |intros _; apply keeps_reap].
  destruct readable; [unfold accept|]; repeat runs_step.
Qed.

Lemma keeps_poll_loop inputs : keeps (runs loop_event) (poll_loop inputs).
Proof.
  induction inputs as [|i inputs IH]; simpl.
  - repeat runs_step.
  - apply keeps_bind; [apply runs_trans | apply keeps_get, runs_refl | intros w].
    destruct (_server_enabled w); [|apply keeps_ret, runs_refl].
    apply keeps_bind; [apply runs_trans | apply keeps_iteration | intros _; exact IH].
Qed.

Lemma keeps_from_loop inputs : keeps (runs loop_event) (from_loop inputs).
Proof.
  unfold from_loop.
  apply keeps_bind; [apply runs_trans | apply keeps_poll_loop | intros still].
  destruct still; [apply keeps_ret, runs_refl|].
  apply keeps_bind; [apply runs_trans | | intros _; apply keeps_ret, runs_refl].
  eapply keeps_weaken; [intros ? ?; apply runs_weaken, sweep_is_loop|].
  apply keeps_final_sweep.
Qed.
End ServerTrace.

Section EndOfServer.
Import MyServer.

Lemma child_rel_refl c : child_rel c c.
Proof. split; [reflexivity | apply grows_refl]. Qed.

Lemma child_rel_trans c1 c2 c3 : child_rel c1 c2 → child_rel c2 c3 → child_rel c1 c3.
Proof.
  intros [S1 G1] [S2 G2]. split; [congruence | eapply grows_trans; eauto].
Qed.

Lemma runs_child_rel c c' : runs loop_event c c' → child_rel c c'.
Proof.
  intros ([Hs _] & _ & G). split; [exact Hs|].
  eapply grows_weaken; [apply loop_is_child | exact G].
Qed.

Lemma keeps_server_loop inputs : keeps child_rel (_server_loop inputs).
Proof.
  unfold _server_loop.
  apply keeps_bind; [apply child_rel_trans | | intros _].
  { intros c. split; [reflexivity|]. apply (keeps_modify_grows child_event _ c). }
  apply keeps_bind; [apply child_rel_trans | | intros _].
  { intros c. split; [reflexivity|]. apply (keeps_emit child_event FlagSet eq_refl c). }
  eapply keeps_weaken; [apply runs_child_rel | apply keeps_from_loop].
Qed.

(** The wrapper around [_server_loop]: what remains to do when the
    function has ended. *)
Lemma child_wrap (m : M t bool) c :
  keeps child_rel m →
  match
    match m c with
    | Done true c' => modify (set_proc Polling) c'
    | Done false c' => (modify (set_proc Terminated) ;; emit ProcExit) c'
    | Raised e c' =>
        (emit (ProcDied e) ;;
         w <- get ;;
         if threads_ended w then modify (set_proc Terminated) else block) c'
    | Blocked c' => Blocked c'
    | Stuck => Stuck
    end
  with
  | Done _ c' | Raised _ c' | Blocked c' => child_rel c c'
  | Stuck => True
  end.
Proof.
  intros Hm. specialize (Hm c).
  destruct (m c) as [[] c1|e c1|c1|]; auto.
  - eapply child_rel_trans; [exact Hm|]. split; [reflexivity|].
    exists [ProcExit]. split; reflexivity.
  - cbv [bind emit get]. cbn [now trace].
    destruct (threads_ended (now c1));
      (eapply child_rel_trans; [exact Hm|]; split; [reflexivity|];
       exists [ProcDied e]; split; reflexivity).
Qed.

Lemma keeps_child inputs : keeps child_rel (child inputs).
Proof.
  intros c. unfold child.
  destruct (_server_proc (now c)); try apply child_rel_refl.
  - apply child_wrap, keeps_server_loop.
  - apply child_wrap. eapply keeps_weaken; [apply runs_child_rel | apply keeps_from_loop].
Qed.

(** What a completed [end] has done, in order. *)
Lemma end_done_spec inputs c c' :
  end_ inputs c = Done tt c' →
  ∃ evs c1,
    trace c1 = trace c ++ [Log ClosingServer; FlagClear] ++ evs
    ∧ forallb child_event evs = true
    ∧ (ListenClose ∉ evs)
    ∧ _server_proc (now c1) = Terminated
    ∧ _soc (now c1) = _soc (now c)
    ∧ trace c' = trace c1 ++ [ProcJoin; ProcClose; ListenClose; Log ServerClosed]
    ∧ _server_proc (now c') = Released
    ∧ _soc (now c') = ListenClosed.
Proof.
  unfold end_, clear, join.
  cbv [bind emit modify get]. cbn [now trace set_enabled _server_proc].
  set (c0 := Config _ _).
  assert (Hc0 : trace c0 = trace c ++ [Log ClosingServer; FlagClear])
    by (subst c0; cbn; rewrite <- app_assoc; reflexivity).
  assert (Hs0 : _soc (now c0) = _soc (now c)) by reflexivity.
  assert (Hp0 : _server_proc (now c0) = _server_proc (now c)) by reflexivity.
  clearbody c0.
  assert (Hquiet : ∀ evs, forallb child_event evs = true → ListenClose ∉ evs).
  { intros evs Hev Hin. rewrite forallb_forall in Hev.
    apply list_elem_of_In, Hev in Hin. discriminate. }
  destruct (_server_proc (now c)) eqn:Hp; try discriminate.
  all: pose proof (keeps_child inputs c0) as Hch.
  all: destruct (child inputs c0) as [[] c1|e c1|c1|]; try discriminate.
  all: destruct Hch as [Hs1 (evs & Htr & Hev)].
  all: destruct (_server_proc (now c1)) eqn:Hp1; try discriminate.
  all: cbv [proc_close soc_close bind emit modify get]; cbn [now trace _server_proc set_proc];
    rewrite Hp1; intros [= <-]; exists evs, c1; cbn.
  all: repeat split; auto; try congruence.
  all: rewrite ?Htr, ?Hc0, <- ?app_assoc; reflexivity.
Qed.

(** [end], step by step: after the clear, the outcome of the [join] is
    the outcome of the child's run. *)
Lemma end_unfolded inputs c :
  let c0 := Config (set_enabled false (now c)) (trace c ++ [Log ClosingServer; FlagClear]) in
  end_ inputs c
  = match _server_proc (now c) with
    | NotStarted => Raised AssertionError c0
    | Released => Raised ValueError c0
    | _ =>
        match child inputs c0 with
        | Done _ c1 =>
            match _server_proc (now c1) with
            | Terminated =>
                Done tt (Config (set_soc ListenClosed (set_proc Released (now c1)))
                           (trace c1 ++ [ProcJoin; ProcClose; ListenClose; Log ServerClosed]))
            | _ => Blocked c1
            end
        | Raised e c1 => Raised e c1
        | Blocked c1 => Blocked c1
        | Stuck => Stuck
        end
    end.
Proof.
  intros c0. unfold end_, clear, join.
  cbv [bind emit modify get]. cbn [now trace set_enabled _server_proc].
  replace (Config (set_enabled false (now c)) ((trace c ++ [Log ClosingServer]) ++ [FlagClear]))
    with c0 by (subst c0; rewrite <- app_assoc; reflexivity).
  destruct (_server_proc (now c)); try reflexivity;
    destruct (child inputs c0) as [[] c1|e c1|c1|]; try reflexivity;
    destruct (_server_proc (now c1)) eqn:Hp1; try reflexivity;
    cbv [proc_close soc_close bind emit modify get]; cbn [now trace _server_proc set_proc];
    rewrite Hp1; cbn; rewrite <- !app_assoc; destruct c1 as [[] ?]; reflexivity.
Qed.

Lemma child_not_running inputs c :
  _server_proc (now c) ≠ AtEntry → _server_proc (now c) ≠ Polling →
  child inputs c = Done tt c.
Proof.
  intros H1 H2. unfold child.
  destruct (_server_proc (now c)); try reflexivity; congruence.
Qed.

(** C3. [end] clears the run-flag first.  Its [join] then waits while
    the runner runs: if the runner's run ends with the process still
    running, [end] is still waiting, with nothing joined, released or
    closed.  Only when that run has ended with the process terminated
    does [join] return, and after it come the release of the process
    and, last, the close of the listening socket, which the runner
    itself has not touched. *)
Theorem end_closes_after_runner inputs c :
  let c0 := Config (set_enabled false (now c)) (trace c ++ [Log ClosingServer; FlagClear]) in
  (∀ c', end_ inputs c = Done tt c' →
         ∃ c1 evs,
           child inputs c0 = Done tt c1
           ∧ _server_proc (now c1) = Terminated
           ∧ trace c1 = trace c0 ++ evs
           ∧ forallb child_event evs = true
           ∧ (ListenClose ∉ evs)
           ∧ _soc (now c1) = _soc (now c)
           ∧ c' = Config (set_soc ListenClosed (set_proc Released (now c1)))
                    (trace c1 ++ [ProcJoin; ProcClose; ListenClose; Log ServerClosed]))
  ∧ (∀ c1, child inputs c0 = Done tt c1 →
           _server_proc (now c1) = AtEntry ∨ _server_proc (now c1) = Polling →
           end_ inputs c = Blocked c1)
  ∧ (∀ c1, child inputs c0 = Blocked c1 → end_ inputs c = Blocked c1).
Proof.
  intros c0. pose proof (end_unfolded inputs c) as Hend. cbv zeta in Hend. fold c0 in Hend.
  assert (Hp0 : _server_proc (now c0) = _server_proc (now c)) by reflexivity.
  split; [|split].
  - intros c' Hc'. rewrite Hc' in Hend.
    pose proof (keeps_child inputs c0) as Hch.
    destruct (_server_proc (now c)) eqn:Hp; try discriminate;
      destruct (child inputs c0) as [[] c1|e c1|c1|]; try discriminate;
      destruct (_server_proc (now c1)) eqn:Hp1; try discriminate;
      injection Hend as ->; destruct Hch as [Hs1 (evs & Htr & Hev)];
      exists c1, evs; repeat split; auto;
      intros Hin; rewrite forallb_forall in Hev;
      apply list_elem_of_In, Hev in Hin; discriminate.
  - intros c1 Hc1 Hrun. rewrite Hc1 in Hend.
    destruct (_server_proc (now c)) eqn:Hp;
      [exfalso| | |exfalso|exfalso];
      try (rewrite child_not_running in Hc1 by (rewrite Hp0; discriminate);
           injection Hc1 as <-; rewrite Hp0 in Hrun; destruct Hrun; discriminate);
      destruct Hrun as [Hr|Hr]; rewrite Hr in Hend; exact Hend.
  - intros c1 Hc1. rewrite Hc1 in Hend.
    destruct (_server_proc (now c)) eqn:Hp;
      [exfalso| | |exfalso|exfalso];
      try (rewrite child_not_running in Hc1 by (rewrite Hp0; discriminate);
           discriminate);
      exact Hend.
Qed.
End EndOfServer.

Section HandleClaims.
Import MyServer.

Lemma end_closes_after_runner_witness :
  (∃ c' c1 evs,
      end_ [] serving = Done tt c'
      ∧ child [] (after (clear (after (emit (Log ClosingServer) serving)))) = Done tt c1
      ∧ _server_proc (now c1) = Terminated
      ∧ forallb child_event evs = true
      ∧ (ListenClose ∉ evs)
      ∧ c' = Config (set_soc ListenClosed (set_proc Released (now c1)))
               (trace c1 ++ [ProcJoin; ProcClose; ListenClose; Log ServerClosed]))
  ∧ ∃ c1, end_ [idle; idle] started = Blocked c1
          ∧ _server_proc (now c1) = Polling
          ∧ _soc (now c1) = Listening.
Proof.
  split.
  - destruct (proj1 (end_closes_after_runner [] serving) (after (end_ [] serving)))
      as (c1 & evs & Hc1 & Hp1 & _ & Hev & Hno & _ & Hc'); [vm_compute; reflexivity|].
    exists (after (end_ [] serving)), c1, evs.
    split; [vm_compute; reflexivity|]. split; [|auto].
    rewrite <- Hc1. vm_compute. reflexivity.
  - exists (after (end_ [idle; idle] started)).
    split; [|split; vm_compute; reflexivity].
    apply (proj1 (proj2 (end_closes_after_runner [idle; idle] started)));
      [vm_compute; reflexivity | right; vm_compute; reflexivity].
Defined.

(** C10. Once [end] has returned, [is_alive] does not answer [False]:
    the process object has been released and the query raises
    [ValueError].  Before [setup] it answers [False], and while the
    child runs it answers [True]. *)
Theorem is_alive_after_end inputs c c' :
  end_ inputs c = Done tt c' →
  is_alive c' = Raised ValueError c'
  ∧ is_alive fresh = Done false fresh
  ∧ is_alive started = Done true started.
Proof.
  intros H. destruct (end_done_spec _ _ _ H) as (_ & _ & _ & _ & _ & _ & _ & _ & Hp & _).
  repeat split. unfold is_alive. cbv [bind get]. rewrite Hp. reflexivity.
Qed.

Lemma is_alive_after_end_witness :
  ∃ c', end_ [] serving = Done tt c' ∧ is_alive c' = Raised ValueError c'.
Proof.
  eexists. split; [vm_compute; reflexivity|].
  apply (is_alive_after_end [] serving). vm_compute. reflexivity.
Defined.

(** The flag after the child has run: set, whatever else happened. *)
Lemma flag_after_entry inputs c :
  _server_proc (now c) = AtEntry →
  match child inputs c with
  | Done _ c' | Raised _ c' | Blocked c' => _server_enabled (now c') = true
  | Stuck => True
  end.
Proof.
  intros Hp. unfold child. rewrite Hp. unfold _server_loop.
  cbv [bind modify emit]. cbn [now trace]. set (c0 := Config _ _).
  pose proof (keeps_from_loop inputs c0) as Hk.
  destruct (from_loop inputs c0) as [[] c1|e c1|c1|]; auto;
    try (destruct Hk as (_ & Hf & _); unfold same_flag in Hf).
  - exact Hf.
  - exact Hf.
  - cbv [get]. cbn [now]. destruct (threads_ended (now c1)); exact Hf.
  - exact Hf.
Qed.

Lemma setup_done_at_entry u c c' :
  setup u c = Done tt c' → _server_proc (now c') = AtEntry.
Proof.
  unfold setup, bind_, listen, start. cbv [bind get emit modify raise].
  cbn [now trace].
  destruct (_server_enabled (now c)); [discriminate|].
  destruct (_soc (now c)); try discriminate.
  destruct u; [discriminate|]. cbn.
  destruct (_server_proc (now c)); try discriminate.
  intros [= <-]. reflexivity.
Qed.

Lemma setup_with_flag_set u c :
  _server_enabled (now c) = true → setup u c = Raised AssertionError c.
Proof. intros H. unfold setup. cbv [bind get]. rewrite H. reflexivity. Qed.

(** C6, as the code has it.  Once the runner has entered its loop and
    set the server-enabled flag, a [setup] with no [end] in between
    fails its assertion before anything else happens: nothing is
    logged, no bind is attempted, the handle is left as it was. *)
Theorem second_setup_fails_assertion :
  (∀ u c, _server_enabled (now c) = true → setup u c = Raised AssertionError c)
  ∧ (∀ u c0 c1 inputs c2 u',
        setup u c0 = Done tt c1 →
        child inputs c1 = Done tt c2 →
        setup u' c2 = Raised AssertionError c2).
Proof.
  split; [apply setup_with_flag_set|].
  intros u c0 c1 inputs c2 u' Hs Hc. apply setup_with_flag_set.
  pose proof (flag_after_entry inputs c1 (setup_done_at_entry _ _ _ Hs)) as Hf.
  rewrite Hc in Hf. exact Hf.
Qed.

Lemma second_setup_fails_assertion_witness :
  setup false serving = Raised AssertionError serving.
Proof.
  apply (proj2 second_setup_fails_assertion false fresh started arrivals serving false);
    vm_compute; reflexivity.
Defined.

(** C6, as the claim has it, fails: a second [setup] right after the
    first, before the child has reached line 66, finds the flag still
    clear, passes the assertion, logs, and calls bind again. *)
Lemma second_setup_before_runner_enters :
  setup false fresh = Done tt started
  ∧ setup false started
    = Raised OSError (Config (now started) (trace started ++ [Log SettingUp; Bind])).
Proof. split; vm_compute; reflexivity. Qed.
End HandleClaims.

Section OneShot.
Import MyServer.

Lemma poll_loop_flag_clear inputs c :
  _server_enabled (now c) = false → poll_loop inputs c = Done false c.
Proof.
  intros H. destruct inputs; simpl; cbv [bind get]; rewrite H; reflexivity.
Qed.






(** With nobody connecting, a pass of the loop is one readiness check. *)
Lemma iteration_idle c :
  _active_clients (now c) = [] →
  iteration idle c = Done tt (Config (now c) (trace c ++ [Select 0])).
Proof.
  intros Ha. unfold iteration, reap, for_active.
  cbv [bind get ret happen_all happenings pending idle select_ emit].
  cbn [now trace]. rewrite Ha. reflexivity.
Qed.

Lemma poll_loop_idle n : ∀ c,
  _server_enabled (now c) = true →
  _active_clients (now c) = [] →
  poll_loop (repeat idle n) c
  = Done true (Config (now c) (trace c ++ repeat (Select 0) n)).
Proof.
  induction n as [|n IH]; intros c Hf Ha; cbn [repeat poll_loop].
  - cbv [bind get ret]. rewrite Hf, app_nil_r. destruct c; reflexivity.
  - unfold bind at 1. unfold get at 1. cbv iota. rewrite Hf.
    unfold bind at 1. rewrite (iteration_idle c Ha).
    rewrite IH by assumption. cbn [now trace repeat].
    rewrite <- app_assoc. reflexivity.
Qed.

(** [end] right after [setup]: the clear comes first, the child then
    sets the flag and polls for as long as one cares to watch, and
    [end] never gets past its [join]. *)
Lemma end_before_runner_enters n :
  end_ (repeat idle n) started
  = Blocked (Config (Build Listening true Polling [] [])
               (trace started ++ [Log ClosingServer; FlagClear; FlagSet]
                ++ repeat (Select 0) n)).
Proof.
  change started
    with (Config (Build Listening false AtEntry [] [])
            [Log SettingUp; Bind; Listen; ProcStart]).
  unfold end_, clear, join, child, _server_loop, from_loop.
  cbv [bind emit modify get]. cbn -[poll_loop repeat].
  rewrite poll_loop_idle by reflexivity.
  cbn -[repeat]. reflexivity.
Qed.

End OneShot.

Section Counting.
Import MyServer.

Lemma closes_app h tr evs : closes h (tr ++ evs) = (closes h tr + closes h evs)%nat.
Proof. unfold closes. rewrite List.filter_app, length_app. reflexivity. Qed.

Lemma closes_thread id h evs :
  forallb (ClientHandler.thread_event id) evs = true → closes h evs = 0%nat.
Proof.
  induction evs as [|e evs IH]; [reflexivity|]. simpl.
  intros [He Hevs]%andb_prop. unfold closes in *. simpl.
  destruct e as [[]| | | | | | | | | | | | | | | | | | | | |]; simpl in *; auto; discriminate.
Qed.

Lemma list_remove_spec h (l : list nat) :
  h ∈ l → NoDup l →
  ∃ l', list_remove h l = Some l' ∧ NoDup l' ∧ ∀ y, y ∈ l' ↔ y ∈ l ∧ y ≠ h.
Proof.
  induction l as [|y l IH]; intros Hin Hnd; [inversion Hin|].
  apply NoDup_cons in Hnd as [Hy Hnd]. simpl.
  destruct (Nat.eqb_spec y h) as [->|Hne].
  - exists l. split; [reflexivity|]. split; [exact Hnd|].
    intros z. split.
    + intros Hz. split; [apply elem_of_cons; auto|]. intros ->. contradiction.
    + intros [[->|Hz]%elem_of_cons Hne]; [contradiction | exact Hz].
  - apply elem_of_cons in Hin as [->|Hin]; [contradiction|].
    destruct (IH Hin Hnd) as (l' & -> & Hnd' & Hl').
    exists (y :: l'). split; [reflexivity|]. split.
    + apply NoDup_cons. split; [|exact Hnd']. rewrite Hl'. tauto.
    + intros z. rewrite !elem_of_cons, Hl'. split.
      * intros [->|[Hz Hzh]]; auto.
      * intros [[->|Hz] Hzh]; auto.
Qed.
End Counting.

Section CleanupOutcome.
Import ClientHandler.

Lemma run_thread_spec n id : ∀ c,
  ∃ c' evs,
    run_thread n id c = Done tt c'
    ∧ trace c' = trace c ++ evs
    ∧ forallb (thread_event id) evs = true
    ∧ _soc (now c') = _soc (now c).
Proof.
  induction n as [|n IH]; intros c; simpl.
  - exists c, []. rewrite app_nil_r. auto.
  - unfold bind.
    destruct (thread_step_spec id c) as (c1 & e1 & -> & T1 & E1 & _ & S1 & _).
    destruct (IH c1) as (c' & e2 & -> & T2 & E2 & S2).
    exists c', (e1 ++ e2). rewrite T2, T1, app_assoc, forallb_app, E1, E2.
    repeat split. congruence.
Qed.

(** A thread past its entry whose flag is clear ends within the bound. *)
Lemma stops_within_bound id c c3 :
  _client_enabled (now c) = false →
  _client_thread (now c) ≠ AtEntry →
  run_thread join_bound id c = Done tt c3 →
  exited (now c3) = true.
Proof.
  destruct c as [[s p f pc] tr]; simpl. intros -> Hpc.
  destruct pc; [contradiction|..]; destruct s, p as [|[]];
    vm_compute; intros [= <-]; reflexivity.
Qed.

Lemma thread_step_peer id c c' :
  thread_step id c = Done tt c' → peer (now c') = peer (now c).
Proof.
  destruct c as [[s p f pc] tr].
  destruct pc, s, p as [|[]], f; cbv -[app]; intros [= <-]; reflexivity.
Qed.

Lemma run_thread_peer n id : ∀ c c',
  run_thread n id c = Done tt c' → peer (now c') = peer (now c).
Proof.
  induction n as [|n IH]; intros c c'; simpl; [intros [= <-]; reflexivity|].
  unfold bind. destruct (thread_step id c) as [[] c1|e c1|c1|] eqn:Hs; try discriminate.
  intros H. rewrite (IH _ _ H). eapply thread_step_peer; eauto.
Qed.

(** A thread whose peer has gone ends within the bound once its flag
    has been cleared, wherever it stood. *)
Lemma stops_when_peer_gone id c c3 e :
  _client_enabled (now c) = false →
  _soc (now c) = SockOpen →
  peer (now c) = PeerFailed e →
  run_thread join_bound id c = Done tt c3 →
  exited (now c3) = true.
Proof.
  destruct c as [[s p f pc] tr]; simpl. intros -> -> ->.
  destruct pc, e; vm_compute; intros [= <-]; reflexivity.
Qed.

(** [cleanup] on an open socket.  While the peer is there it either
    completes, in the order clear, wait, join, shutdown, close, or it
    waits forever with the socket untouched, the latter only for a
    thread that had not yet run its first statement.  When the peer has
    gone it never waits: the thread ends, the [join] returns, and the
    [shutdown] raises [OSError] with the socket still open. *)
Lemma cleanup_outcome id c :
  _soc (now c) = SockOpen →
  (peer (now c) = PeerUp
   ∧ ((∃ c' evs,
          cleanup id c = Done tt c'
          ∧ trace c' = trace c ++ ClientClear id :: evs ++ [ClientJoin id; Shutdown id; Close id]
          ∧ forallb (thread_event id) evs = true
          ∧ exited (now c') = true
          ∧ _soc (now c') = SockClosed)
      ∨ (∃ c' evs,
            cleanup id c = Blocked c'
            ∧ trace c' = trace c ++ ClientClear id :: evs
            ∧ forallb (thread_event id) evs = true
            ∧ _soc (now c') = SockOpen
            ∧ _client_thread (now c) = AtEntry)))
  ∨ (∃ e c' evs,
        peer (now c) = PeerFailed e
        ∧ cleanup id c = Raised OSError c'
        ∧ trace c' = trace c ++ ClientClear id :: evs ++ [ClientJoin id]
        ∧ forallb (thread_event id) evs = true
        ∧ exited (now c') = true
        ∧ _soc (now c') = SockOpen).
Proof.
  intros Hopen.
  set (c0 := Config (set_enabled false (now c)) (trace c ++ [ClientClear id])).
  destruct (run_thread_spec join_bound id c0) as (c3 & evs & Hrun & Htr & Hev & Hsoc).
  pose proof (run_thread_peer _ _ _ _ Hrun) as Hpeer.
  assert (Hc : cleanup id c
               = match join_now id c3 with
                 | Done _ c4 => (shutdown id ;; close id) c4
                 | Raised e c4 => Raised e c4
                 | Blocked c4 => Blocked c4
                 | Stuck => Stuck
                 end).
  { unfold cleanup, join. unfold bind at 1.
    change (clear id c) with (Done tt c0 : result t unit). cbv iota.
    unfold bind at 1. unfold bind at 1. rewrite Hrun. reflexivity. }
  assert (Htr3 : trace c3 = trace c ++ ClientClear id :: evs).
  { rewrite Htr. subst c0. cbn. rewrite <- app_assoc. reflexivity. }
  assert (Hs3 : _soc (now c3) = SockOpen).
  { rewrite Hsoc. subst c0. cbn. destruct (now c); exact Hopen. }
  assert (Hp3 : peer (now c3) = peer (now c)).
  { rewrite Hpeer. subst c0. cbn. destruct (now c); reflexivity. }
  clear Hsoc Htr Hpeer.
  destruct (peer (now c)) as [|e] eqn:Hp.
  - left. split; [reflexivity|].
    destruct (exited (now c3)) eqn:Hex.
    + left. destruct c3 as [[s3 p3 f3 pc3] tr3]. simpl in *. subst s3 p3 tr3.
      eexists _, evs. split.
      { rewrite Hc. unfold join_now. cbv [bind get]. cbn [now]. unfold exited in *.
        cbn [_client_thread] in *. destruct pc3; try discriminate. cbv -[app]. reflexivity. }
      cbn. rewrite <- !app_assoc. repeat split; auto.
    + right. exists c3, evs. split.
      { rewrite Hc. unfold join_now. cbv [bind get]. rewrite Hex. reflexivity. }
      repeat split; auto.
      destruct (_client_thread (now c)) eqn:Hpc; [reflexivity|..];
        (rewrite (stops_within_bound id c0 c3) in Hex;
         [discriminate | reflexivity | subst c0; cbn; destruct (now c); cbn in *; congruence
         | exact Hrun]).
  - right. exists e.
    assert (Hex : exited (now c3) = true).
    { apply (stops_when_peer_gone id c0 c3 e); [reflexivity | | | exact Hrun];
        subst c0; cbn; destruct (now c); cbn in *; assumption. }
    destruct c3 as [[s3 p3 f3 pc3] tr3]. simpl in *. subst s3 p3 tr3.
    eexists _, evs. split; [reflexivity|]. split.
    { rewrite Hc. unfold join_now. cbv [bind get]. cbn [now]. unfold exited in *.
      cbn [_client_thread] in *. destruct pc3; try discriminate. cbv -[app]. reflexivity. }
    cbn. rewrite <- !app_assoc. repeat split; auto.
Qed.
End CleanupOutcome.

Section Calm.
Import MyServer.

Lemma calm_refl c : calm c c.
Proof. repeat split. Qed.

Lemma calm_trans c1 c2 c3 : calm c1 c2 → calm c2 c3 → calm c1 c3.
Proof.
  intros (A1 & C1 & S1) (A2 & C2 & S2). repeat split.
  - congruence.
  - intros k. rewrite C2. apply C1.
  - intros k. rewrite S2. apply S1.
Qed.

Lemma calm_consistent c c' : calm c c' → consistent c → consistent c'.
Proof.
  intros (_ & Hc & Hs) Hcons k. rewrite Hc, Hcons. specialize (Hs k).
  unfold sock_closed.
  destruct (handlers (now c') !! k), (handlers (now c) !! k); simplify_eq/=; auto.
  rewrite Hs. reflexivity.
Qed.

Lemma calm_open c c' h : calm c c' → open_in c h → open_in c' h.
Proof.
  intros (_ & _ & Hs) (x & Hx & Hopen). specialize (Hs h). rewrite Hx in Hs.
  destruct (handlers (now c') !! h) as [x'|] eqn:Hx'; simplify_eq/=.
  exists x'. split; [exact Hx' | congruence].
Qed.

Lemma calm_tracked c c' : calm c c' → tracked c → tracked c'.
Proof.
  intros Hcalm [Hnd Hopen]. pose proof Hcalm as (Ha & _). split; rewrite Ha; [exact Hnd|].
  intros h Hh. apply (calm_open c c' h Hcalm). apply Hopen, Hh.
Qed.

Lemma calm_wf c c' : calm c c' → wf c → wf c'.
Proof. intros H [H1 H2]. split; eauto using calm_consistent, calm_tracked. Qed.

(** A method of a handler that leaves the socket alone and closes nothing. *)
Lemma keeps_calm_on_handler {A} h (m : M ClientHandler.t A) :
  (∀ x tr, match m (Config x tr) with
           | Done _ c' | Raised _ c' | Blocked c' =>
               ClientHandler._soc (now c') = ClientHandler._soc x
               ∧ ∃ evs, trace c' = tr ++ evs ∧ ∀ k, closes k evs = 0%nat
           | Stuck => True
           end) →
  keeps calm (on_handler h m).
Proof.
  intros Hm c. unfold on_handler.
  destruct (handlers (now c) !! h) as [x|] eqn:Hx; [|exact I].
  specialize (Hm x (trace c)).
  assert (Hgoal : ∀ c1 : config ClientHandler.t,
             ClientHandler._soc (now c1) = ClientHandler._soc x
             ∧ (∃ evs, trace c1 = trace c ++ evs ∧ ∀ k, closes k evs = 0%nat) →
             calm c (Config (set_handlers (<[h:=now c1]> (handlers (now c))) (now c))
                       (trace c1))).
  { intros c1 (Hs & evs & Htr & Hev). repeat split; cbn [now trace handlers set_handlers].
    - intros k. rewrite Htr, closes_app, Hev. lia.
    - intros k. destruct (decide (h = k)) as [<-|Hne].
      + rewrite list_lookup_insert_eq by (eapply lookup_lt_Some; eauto).
        rewrite Hx. cbn. congruence.
      + rewrite list_lookup_insert_ne by exact Hne. reflexivity. }
  destruct (m (Config x (trace c))); auto.
Qed.

Lemma keeps_calm_thread_step h : keeps calm (on_handler h (ClientHandler.thread_step h)).
Proof.
  apply keeps_calm_on_handler. intros x tr.
  destruct (thread_step_spec h (Config x tr)) as (c' & evs & -> & Htr & Hev & _ & Hs & _).
  split; [exact Hs|]. exists evs. split; [exact Htr|].
  intros k. eapply closes_thread; eauto.
Qed.

Lemma keeps_calm_set_peer h p :
  keeps calm (on_handler h (modify (ClientHandler.set_peer p))).
Proof.
  apply keeps_calm_on_handler. intros x tr. cbn. split; [reflexivity|].
  exists []. rewrite app_nil_r. auto.
Qed.

Lemma keeps_calm_happen ev : keeps calm (happen ev).
Proof.
  intros c. unfold happen. destruct ev as [h|h e];
    (destruct (handlers (now c) !! h); [|apply calm_refl]).
  - apply keeps_calm_thread_step.
  - apply keeps_calm_set_peer.
Qed.

Lemma happen_done ev c : ∃ c', happen ev c = Done tt c'.
Proof.
  unfold happen. destruct ev as [h|h e];
    (destruct (handlers (now c) !! h) as [x|] eqn:Hx; [|eexists; reflexivity]);
    unfold on_handler; rewrite Hx.
  - destruct (thread_step_spec h (Config x (trace c))) as (c' & _ & -> & _).
    eexists; reflexivity.
  - eexists; reflexivity.
Qed.

Lemma happen_all_done evs : ∀ c, ∃ c', happen_all evs c = Done tt c' ∧ calm c c'.
Proof.
  induction evs as [|ev evs IH]; intros c; simpl.
  - exists c. split; [reflexivity | apply calm_refl].
  - unfold bind. destruct (happen_done ev c) as (c1 & H1).
    pose proof (keeps_calm_happen ev c) as Hc1. rewrite H1 in Hc1 |- *.
    destruct (IH c1) as (c' & -> & Hc'). exists c'.
    split; [reflexivity | eapply calm_trans; eauto].
Qed.
End Calm.

Section Bookkeeping.
Import MyServer.

Lemma write_back_same (c : config t) h x :
  handlers (now c) !! h = Some x →
  Config (set_handlers (<[h:=x]> (handlers (now c))) (now c)) (trace c) = c.
Proof.
  intros Hx. rewrite list_insert_id by exact Hx.
  destruct c as [[] tr]; reflexivity.
Qed.

Lemma on_handler_is_alive c h x :
  handlers (now c) !! h = Some x →
  on_handler h ClientHandler.is_alive c = Done (negb (ClientHandler.exited x)) c.
Proof.
  intros Hx. unfold on_handler. rewrite Hx. cbn.
  rewrite (write_back_same c h x Hx). reflexivity.
Qed.

Lemma on_handler_getpeername c h x :
  handlers (now c) !! h = Some x →
  ClientHandler._soc x = ClientHandler.SockOpen →
  ClientHandler.peer x = ClientHandler.PeerUp →
  on_handler h ClientHandler.getpeername c = Done tt c.
Proof.
  intros Hx Hopen Hup. unfold on_handler. rewrite Hx.
  unfold ClientHandler.getpeername. cbv [bind get]. cbn [now]. rewrite Hopen, Hup. cbn.
  rewrite (write_back_same c h x Hx). reflexivity.
Qed.

(** On a connection that the peer has torn down the query fails. *)
Lemma on_handler_getpeername_gone c h x e :
  handlers (now c) !! h = Some x →
  ClientHandler.peer x = ClientHandler.PeerFailed e →
  on_handler h ClientHandler.getpeername c = Raised OSError c.
Proof.
  intros Hx Hgone. unfold on_handler. rewrite Hx.
  unfold ClientHandler.getpeername. cbv [bind get]. cbn [now]. rewrite Hgone.
  destruct (ClientHandler._soc x); cbn; rewrite (write_back_same c h x Hx); reflexivity.
Qed.

Lemma closes_cleanup k id evs :
  forallb (ClientHandler.thread_event id) evs = true →
  closes k (ClientClear id :: evs ++ [ClientJoin id; Shutdown id; Close id])
  = if Nat.eqb id k then 1%nat else 0%nat.
Proof.
  intros Hev. change (ClientClear id :: evs ++ [ClientJoin id; Shutdown id; Close id])
    with ([ClientClear id] ++ evs ++ [ClientJoin id; Shutdown id; Close id]).
  rewrite !closes_app, (closes_thread id k evs Hev). unfold closes. simpl.
  destruct (Nat.eqb id k); reflexivity.
Qed.

(** [cleanup] of a worker whose socket is open and whose peer is there,
    seen from the server: it completes and the worker is closed, once,
    or it waits on a thread that had not yet run, with nothing closed. *)
Lemma on_handler_cleanup c h :
  consistent c → up_in c h →
  (∃ c', on_handler h (ClientHandler.cleanup h) c = Done tt c'
         ∧ consistent c' ∧ closed_in c' h
         ∧ same_others h c c' ∧ same_active c c')
  ∨ (∃ c' x, on_handler h (ClientHandler.cleanup h) c = Blocked c'
             ∧ handlers (now c) !! h = Some x
             ∧ ClientHandler._client_thread x = ClientHandler.AtEntry).
Proof.
  intros Hcons (x & Hx & Hopen & Hup).
  pose proof (lookup_lt_Some _ _ _ Hx) as Hlt.
  destruct (cleanup_outcome h (Config x (trace c)) Hopen)
    as [[_ [(c1 & evs & Hc & Htr & Hev & Hex & Hs)|(c1 & evs & Hc & Htr & Hev & Hs & Hpc)]]
       |(e & _ & _ & Hgone & _)].
  - left. eexists. split; [unfold on_handler; rewrite Hx, Hc; reflexivity|].
    repeat split; cbn [now trace handlers set_handlers _active_clients].
    + intros k. cbn [trace] in Htr. cbn [now trace handlers set_handlers].
      rewrite Htr, closes_app, closes_cleanup, Hcons by exact Hev.
      destruct (Nat.eqb_spec h k) as [<-|Hne].
      * rewrite list_lookup_insert_eq, Hx by exact Hlt.
        unfold sock_closed. rewrite Hs, Hopen. reflexivity.
      * rewrite list_lookup_insert_ne by exact Hne. lia.
    + exists (now c1). cbn [now trace handlers set_handlers].
      rewrite list_lookup_insert_eq by exact Hlt. auto.
    + intros k Hne. cbn [now trace handlers set_handlers].
      apply list_lookup_insert_ne. auto.
  - right. exists (Config (set_handlers (<[h:=now c1]> (handlers (now c))) (now c)) (trace c1)), x.
    split; [unfold on_handler; rewrite Hx, Hc; reflexivity|]. auto.
  - cbn [now] in Hgone. congruence.
Qed.

Lemma accept_wf c :
  wf c → ∃ c', accept c = Done tt c' ∧ wf c'.
Proof.
  intros [Hcons [Hnd Hopen]]. eexists.
  split; [cbv [accept bind get modify emit]; cbn [now trace]; reflexivity|].
  assert (Hfresh : length (handlers (now c)) ∉ _active_clients (now c)).
  { intros (x & Hx & _)%Hopen. apply lookup_lt_Some in Hx. lia. }
  split; [|split]; cbn [now trace handlers set_handlers set_active _active_clients].
  - intros k. cbn [now trace handlers set_handlers set_active].
    rewrite closes_app, Hcons. change (closes k [Accept _]) with 0%nat.
    destruct (decide (k < length (handlers (now c)))%nat) as [Hlt|Hge].
    + rewrite lookup_app_l by exact Hlt. lia.
    + rewrite lookup_app_r by lia.
      rewrite (lookup_ge_None_2 (handlers (now c)) k) by lia.
      destruct (k - length (handlers (now c)))%nat as [|n]; cbn; [reflexivity|].
      destruct n; reflexivity.
  - apply NoDup_app. repeat split; [exact Hnd| |apply NoDup_singleton].
    intros y Hy ->%list_elem_of_singleton. contradiction.
  - intros y [Hy| ->%list_elem_of_singleton]%elem_of_app.
    + destruct (Hopen y Hy) as (x & Hx & Ho). exists x. split; [|exact Ho].
      apply lookup_app_l_Some. exact Hx.
    + exists ClientHandler.__init__. split; [|reflexivity].
      rewrite lookup_app_r by lia. rewrite Nat.sub_diag. reflexivity.
Qed.
End Bookkeeping.

Section Scan.
Import MyServer.

Lemma emit_calm c e :
  (∀ k, closes k [e] = 0%nat) →
  calm c (Config (now c) (trace c ++ [e])).
Proof.
  intros He. split; [reflexivity|]. split; [|intros k; reflexivity].
  intros k. cbn [now trace]. rewrite closes_app, He. lia.
Qed.

Lemma for_in_active_step fuel i (body : nat → M t unit) c h :
  _active_clients (now c) !! i = Some h →
  for_in_active (S fuel) i body c = (body h ;; for_in_active fuel (S i) body) c.
Proof. intros Hi. simpl. cbv [bind get]. rewrite Hi. reflexivity. Qed.

(** The body of the reap scan leaves a live worker alone ... *)
Lemma reap_one_alive c h :
  alive_in c h → reap_one h c = Done tt c.
Proof.
  intros (x & Hx & Hal). unfold reap_one. unfold bind at 1.
  rewrite (on_handler_is_alive c h x Hx), Hal. reflexivity.
Qed.

(** ... and fails on a dead one whose peer has gone: the flag is
    cleared and the thread joined, the [shutdown] raises, and neither
    the [close] nor the removal from the set is reached. *)
Lemma reap_one_gone c h x e :
  handlers (now c) !! h = Some x →
  ClientHandler.exited x = true →
  ClientHandler._soc x = ClientHandler.SockOpen →
  ClientHandler.peer x = ClientHandler.PeerFailed e →
  reap_one h c
  = Raised OSError
      (Config (set_handlers (<[h := ClientHandler.set_enabled false x]> (handlers (now c)))
                 (now c))
         (trace c ++ [ClientClear h; ClientJoin h])).
Proof.
  intros Hx Hex Ho Hgone. unfold reap_one. unfold bind at 1.
  rewrite (on_handler_is_alive c h x Hx), Hex. cbn [negb].
  unfold bind at 1. unfold on_handler. rewrite Hx.
  rewrite (cleanup_lost_peer h x (trace c) e Hex Ho Hgone). reflexivity.
Qed.

Lemma scan_all_alive fuel : ∀ i c,
  (∀ h, h ∈ _active_clients (now c) → alive_in c h) →
  for_in_active fuel i reap_one c = Done tt c.
Proof.
  induction fuel as [|fuel IH]; intros i c Hal; simpl; [reflexivity|].
  cbv [bind get]. destruct (_active_clients (now c) !! i) as [h|] eqn:Hi; [|reflexivity].
  rewrite (reap_one_alive c h) by (apply Hal; eapply list_elem_of_lookup_2; eauto).
  apply IH, Hal.
Qed.

(** The scan walks over a stretch of live workers without a change. *)
Lemma scan_alive_prefix j : ∀ fuel i c,
  (i + j <= length (_active_clients (now c)))%nat →
  (∀ k h, (i <= k < i + j)%nat → _active_clients (now c) !! k = Some h → alive_in c h) →
  for_in_active (j + fuel) i reap_one c = for_in_active fuel (i + j) reap_one c.
Proof.
  induction j as [|j IH]; intros fuel i c Hlen Hal.
  - rewrite Nat.add_0_r. reflexivity.
  - destruct (lookup_lt_is_Some_2 (_active_clients (now c)) i) as [h Hi]; [lia|].
    change (S j + fuel)%nat with (S (j + fuel)).
    rewrite (for_in_active_step _ _ _ _ _ Hi). unfold bind.
    rewrite (reap_one_alive c h) by (apply (Hal i h); [lia | exact Hi]).
    replace (i + S j)%nat with (S i + j)%nat by lia.
    apply IH; [lia|].
    intros k y Hk. apply Hal. lia.
Qed.

(** The scan up to the first dead worker, whose peer has gone. *)
Lemma reap_first_dead c pre h post x e :
  _active_clients (now c) = pre ++ h :: post →
  (∀ y, y ∈ pre → alive_in c y) →
  handlers (now c) !! h = Some x →
  ClientHandler.exited x = true →
  ClientHandler._soc x = ClientHandler.SockOpen →
  ClientHandler.peer x = ClientHandler.PeerFailed e →
  reap c
  = Raised OSError
      (Config (set_handlers (<[h := ClientHandler.set_enabled false x]> (handlers (now c)))
                 (now c))
         (trace c ++ [ClientClear h; ClientJoin h])).
Proof.
  intros Hact Hpre Hx Hex Ho Hgone.
  assert (Hi : _active_clients (now c) !! length pre = Some h).
  { rewrite Hact, lookup_app_r by lia. rewrite Nat.sub_diag. reflexivity. }
  unfold reap, for_active. cbv [bind get]. rewrite Hact at 1. rewrite length_app. cbn [length].
  rewrite (scan_alive_prefix (length pre) (S (length post)) 0 c).
  - cbn [Nat.add]. rewrite (for_in_active_step _ _ _ _ _ Hi). unfold bind.
    rewrite (reap_one_gone c h x e Hx Hex Ho Hgone). reflexivity.
  - rewrite Hact, length_app. lia.
  - intros k y Hk Hy. apply Hpre. rewrite Hact, lookup_app_l in Hy by lia.
    eapply list_elem_of_lookup_2; eauto.
Qed.
End Scan.

Section Sweep.
Import MyServer.

(** When the body leaves the list alone, Python's index-driven [for]
    visits every element, in order. *)
Lemma for_in_active_each (body : nat → M t unit) :
  (∀ h c c', body h c = Done tt c' → same_active c c') →
  ∀ fuel i c,
    (length (_active_clients (now c)) <= i + fuel)%nat →
    for_in_active fuel i body c = each (drop i (_active_clients (now c))) body c.
Proof.
  intros Hbody. induction fuel as [|fuel IH]; intros i c Hlen; simpl.
  - rewrite drop_ge by lia. reflexivity.
  - cbv [bind get]. destruct (_active_clients (now c) !! i) as [h|] eqn:Hi.
    + rewrite (drop_S _ _ _ Hi). simpl. unfold bind.
      destruct (body h c) as [[] c1|e c1|c1|] eqn:Hb; try reflexivity.
      pose proof (Hbody h c c1 Hb) as Ha. unfold same_active in Ha.
      rewrite IH by (rewrite Ha; lia). rewrite Ha. reflexivity.
    + rewrite drop_ge by (apply lookup_ge_None; exact Hi). reflexivity.
Qed.

Lemma sweep_one_outcome c h :
  consistent c → up_in c h →
  (∃ c', sweep_one h c = Done tt c'
         ∧ consistent c' ∧ closed_in c' h
         ∧ same_others h c c' ∧ same_active c c')
  ∨ (∃ c' x, sweep_one h c = Blocked c'
             ∧ handlers (now c) !! h = Some x
             ∧ ClientHandler._client_thread x = ClientHandler.AtEntry).
Proof.
  intros Hcons (x & Hx & Ho & Hup).
  set (c0 := Config (now c) (trace c ++ [Log (CleaningUp h)])).
  assert (Hsw : sweep_one h c = on_handler h (ClientHandler.cleanup h) c0).
  { unfold sweep_one. unfold bind at 1.
    rewrite (on_handler_getpeername c h x Hx Ho Hup). reflexivity. }
  assert (Hcalm : calm c c0) by (apply emit_calm; reflexivity).
  rewrite Hsw.
  destruct (on_handler_cleanup c0 h (calm_consistent _ _ Hcalm Hcons)
              (ex_intro _ x (conj Hx (conj Ho Hup))))
    as [(c1 & Hc & Hcons1 & Hcl & Hoth & Hact)|(c1 & x' & Hc & Hx' & Hpc)].
  - left. exists c1. split; [exact Hc|]. split; [exact Hcons1|].
    split; [exact Hcl|]. split; [exact Hoth | exact Hact].
  - right. exists c1, x'. split; [exact Hc|]. split; [exact Hx' | exact Hpc].
Qed.

Lemma sweep_one_same_active h c c' : sweep_one h c = Done tt c' → same_active c c'.
Proof.
  unfold sweep_one, on_handler, same_active. cbv [bind emit]. cbn [now trace].
  destruct (handlers (now c) !! h) as [x|]; [|discriminate].
  destruct (ClientHandler.getpeername _) as [[] c1|e c1|c1|]; try discriminate.
  cbn [now trace handlers set_handlers].
  destruct (<[h:=now c1]> (handlers (now c)) !! h) as [y|]; [|discriminate].
  destruct (ClientHandler.cleanup h _) as [[] c2|e c2|c2|]; try discriminate.
  intros [= <-]. reflexivity.
Qed.

(** The sweep over a list of distinct workers whose sockets are open and
    whose peers are there: it completes with every one of them closed
    and nothing else touched, or it waits on the first worker whose
    thread had not yet run. *)
Lemma each_sweep l : ∀ c,
  consistent c → NoDup l → (∀ h, h ∈ l → up_in c h) →
  (∃ c', each l sweep_one c = Done tt c'
         ∧ consistent c'
         ∧ (∀ h, h ∈ l → closed_in c' h)
         ∧ (∀ k, k ∉ l → handlers (now c') !! k = handlers (now c) !! k)
         ∧ same_active c c')
  ∨ (∃ c' h x, each l sweep_one c = Blocked c'
               ∧ h ∈ l
               ∧ handlers (now c) !! h = Some x
               ∧ ClientHandler._client_thread x = ClientHandler.AtEntry).
Proof.
  induction l as [|h l IH]; intros c Hcons Hnd Hopen; simpl.
  - left. exists c. repeat split; auto. intros h Hh. inversion Hh.
  - apply NoDup_cons in Hnd as [Hh Hnd]. unfold bind.
    destruct (sweep_one_outcome c h Hcons (Hopen h (list_elem_of_here _ _)))
      as [(c1 & -> & Hcons1 & Hcl & Hoth & Hact)|(c1 & x & -> & Hx & Hpc)].
    2: { right. exists c1, h, x. repeat split; auto. apply list_elem_of_here. }
    assert (Hopen1 : ∀ y, y ∈ l → up_in c1 y).
    { intros y Hy. destruct (Hopen y (list_elem_of_further _ _ _ Hy)) as (z & Hz & Hzo).
      exists z. split; [|exact Hzo]. rewrite <- Hz. apply Hoth. intros ->. contradiction. }
    destruct (IH c1 Hcons1 Hnd Hopen1)
      as [(c2 & -> & Hcons2 & Hcl2 & Hrest & Hact2)|(c2 & y & z & -> & Hy & Hz & Hpc)].
    + left. exists c2. repeat split; auto.
      * intros y [->|Hy]%elem_of_cons; [|apply Hcl2, Hy].
        destruct Hcl as (z & Hz & Hzc). exists z. split; [|exact Hzc].
        rewrite <- Hz. apply Hrest. exact Hh.
      * intros k Hk. rewrite Hrest by (intros Hkl; apply Hk, list_elem_of_further, Hkl).
        apply Hoth. intros ->. apply Hk, list_elem_of_here.
      * unfold same_active in *. congruence.
    + right. exists c2, y, z. repeat split; auto.
      * apply list_elem_of_further, Hy.
      * rewrite <- Hz. symmetry. apply Hoth. intros ->. contradiction.
Qed.

Lemma final_sweep_each c :
  final_sweep c = each (_active_clients (now c)) sweep_one c.
Proof.
  unfold final_sweep, for_active. cbv [bind get].
  rewrite (for_in_active_each sweep_one sweep_one_same_active) by lia.
  reflexivity.
Qed.
End Sweep.

(** * The server while every client stays *)

Section Thriving.
Import MyServer.

Lemma steady_not_exited h : ClientHandler.steady h → ClientHandler.exited h = false.
Proof.
  intros (_ & _ & _ & Hpc). unfold ClientHandler.exited.
  destruct Hpc as [->|[->| ->]]; reflexivity.
Qed.

Lemma healthy_alive x : ClientHandler.healthy x → ClientHandler.exited x = false.
Proof.
  intros (_ & _ & [Hpc|Hst]); [|apply steady_not_exited, Hst].
  unfold ClientHandler.exited. rewrite Hpc. reflexivity.
Qed.

(** A statement of the thread leaves a healthy worker healthy. *)
Lemma healthy_step id x tr c' :
  ClientHandler.healthy x →
  ClientHandler.thread_step id (Config x tr) = Done tt c' →
  ClientHandler.healthy (now c').
Proof.
  intros (Hs & Hp & [Hpc|Hst]) Hstep.
  - destruct x as [s p f pc]; simpl in *; subst.
    cbv -[app] in Hstep. injection Hstep as <-. cbv. auto 10.
  - pose proof (steady_step id (Config x tr) c' Hst Hstep) as Hst'.
    pose proof Hst' as (Hs' & Hp' & _). split; [exact Hs'|]. split; [exact Hp'|]. auto.
Qed.

Lemma thriving_alive c h : thriving c → h ∈ _active_clients (now c) → alive_in c h.
Proof.
  intros [[_ [_ Hopen]] Hall] Hh. destruct (Hopen h Hh) as (x & Hx & _).
  exists x. split; [exact Hx|]. apply healthy_alive. apply (Hall h x Hx).
Qed.

Lemma thriving_up c h : thriving c → h ∈ _active_clients (now c) → up_in c h.
Proof.
  intros [[_ [_ Hopen]] Hall] Hh. destruct (Hopen h Hh) as (x & Hx & _).
  destruct (Hall h x Hx) as (_ & Ho & Hup & _). exists x. auto.
Qed.

Lemma thriving_emit c e :
  (∀ k, closes k [e] = 0%nat) → thriving c → thriving (Config (now c) (trace c ++ [e])).
Proof.
  intros He [Hwf Hall]. split; [|exact Hall].
  apply (calm_wf c); [apply emit_calm, He | exact Hwf].
Qed.

Lemma thriving_happen ev c :
  thriving c → no_loss ev = true → ∃ c', happen ev c = Done tt c' ∧ thriving c'.
Proof.
  intros [Hwf Hall] Hno. destruct ev as [h|h e]; [|discriminate].
  pose proof (keeps_calm_happen (Runs h) c) as Hcalm.
  unfold happen in *. destruct (handlers (now c) !! h) as [x|] eqn:Hx.
  2: { exists c. split; [reflexivity|]. split; assumption. }
  unfold on_handler in *. rewrite Hx in *.
  destruct (thread_step_spec h (Config x (trace c))) as (c1 & evs & Hs & _).
  rewrite Hs in *. eexists. split; [reflexivity|]. split; [eapply calm_wf; eauto|].
  intros k y. cbn [now handlers set_handlers _active_clients].
  destruct (decide (k = h)) as [->|Hne].
  - rewrite list_lookup_insert_eq by (eapply lookup_lt_Some; eauto). intros [= <-].
    split; [apply (Hall h x Hx)|].
    eapply healthy_step; [apply (Hall h x Hx) | exact Hs].
  - rewrite list_lookup_insert_ne by auto. apply Hall.
Qed.

Lemma thriving_happen_all evs : ∀ c,
  thriving c → forallb no_loss evs = true →
  ∃ c', happen_all evs c = Done tt c' ∧ thriving c'.
Proof.
  induction evs as [|ev evs IH]; intros c Hthr; simpl.
  - intros _. exists c. auto.
  - intros [Hev Hevs]%andb_prop. unfold bind.
    destruct (thriving_happen ev c Hthr Hev) as (c1 & -> & Hthr1). apply IH; assumption.
Qed.

Lemma thriving_accept c : thriving c → ∃ c', accept c = Done tt c' ∧ thriving c'.
Proof.
  intros [Hwf Hall]. destruct (accept_wf c Hwf) as (c' & Hc' & Hwf').
  exists c'. split; [exact Hc'|]. split; [exact Hwf'|].
  revert Hc'. cbv [accept bind get modify emit]. cbn [now trace]. intros [= <-].
  intros h x. cbn [now handlers set_handlers set_active _active_clients].
  intros [Hx|[Hlen Hx]]%lookup_app_Some.
  - destruct (Hall h x Hx) as [Hin Hh]. split; [apply elem_of_app; auto | exact Hh].
  - destruct (h - length (handlers (now c)))%nat as [|n] eqn:Hn; [|destruct n; discriminate].
    injection Hx as <-. split.
    + apply elem_of_app. right.
      replace h with (length (handlers (now c))) by lia. apply list_elem_of_here.
    + cbv. auto.
Qed.

(** With everybody alive the reap scan changes nothing. *)
Lemma thriving_reap c : thriving c → reap c = Done tt c.
Proof.
  intros Hthr. unfold reap, for_active. cbv [bind get].
  apply scan_all_alive. intros h. apply thriving_alive, Hthr.
Qed.

Lemma thriving_iteration i c :
  thriving c → forallb no_loss (happenings i) = true →
  ∃ c', iteration i c = Done tt c' ∧ thriving c'.
Proof.
  intros Hthr Hno. unfold iteration. unfold bind at 1.
  destruct (thriving_happen_all (happenings i) c Hthr Hno) as (c1 & -> & Hthr1).
  unfold bind at 1. unfold select_. cbv [bind emit ret]. cbn [now trace].
  set (c2 := Config _ _).
  assert (Hthr2 : thriving c2) by (apply thriving_emit; [reflexivity | exact Hthr1]).
  clearbody c2. destruct (pending i).
  - destruct (thriving_accept c2 Hthr2) as (c3 & -> & Hthr3).
    exists c3. split; [apply thriving_reap, Hthr3 | exact Hthr3].
  - exists c2. split; [apply thriving_reap, Hthr2 | exact Hthr2].
Qed.

Lemma thriving_poll_loop inputs : ∀ c,
  thriving c → peaceful inputs = true → _server_enabled (now c) = true →
  ∃ c', poll_loop inputs c = Done true c' ∧ thriving c' ∧ runs loop_event c c'.
Proof.
  induction inputs as [|i inputs IH]; intros c Hthr Hp Hf; simpl; cbv [bind get]; rewrite Hf.
  - exists c. split; [reflexivity|]. split; [exact Hthr | apply runs_refl].
  - simpl in Hp. apply andb_prop in Hp as [Hi Hp].
    destruct (thriving_iteration i c Hthr Hi) as (c1 & Hc1 & Hthr1).
    pose proof (keeps_iteration i c) as Hk. rewrite Hc1 in Hk. rewrite Hc1.
    destruct (IH c1 Hthr1 Hp) as (c' & -> & Hthr' & Hr).
    { destruct Hk as (_ & Hfl & _). unfold same_flag in Hfl. congruence. }
    exists c'. split; [reflexivity|]. split; [exact Hthr'|]. eapply runs_trans; eauto.
Qed.

(** The child from its start into the loop. *)
Lemma child_enters inputs c :
  thriving c → peaceful inputs = true → _server_proc (now c) = AtEntry →
  ∃ c', child inputs c = Done tt c'
        ∧ thriving c'
        ∧ _server_proc (now c') = Polling
        ∧ _server_enabled (now c') = true
        ∧ _soc (now c') = _soc (now c).
Proof.
  intros Hthr Hpe Hp. unfold child. rewrite Hp.
  unfold _server_loop. cbv [bind modify emit]. cbn [now trace].
  set (c1 := Config _ _).
  assert (Hthr1 : thriving c1).
  { destruct Hthr as [Hwf Hall]. split; [|exact Hall].
    eapply calm_wf; [|exact Hwf]. split; [reflexivity|]. split; [|intros k; reflexivity].
    intros k. subst c1. cbn [now trace]. rewrite closes_app. cbn. lia. }
  assert (Hf1 : _server_enabled (now c1) = true) by reflexivity.
  assert (Hs1 : _soc (now c1) = _soc (now c)) by reflexivity.
  clearbody c1. unfold from_loop. unfold bind at 1.
  destruct (thriving_poll_loop inputs c1 Hthr1 Hpe Hf1) as (c2 & -> & Hthr2 & [Hs2 _] & Hfl & _).
  cbn. unfold same_flag in Hfl.
  eexists. split; [reflexivity|]. cbn.
  split; [|repeat split; congruence].
  destruct Hthr2 as [Hwf2 Hall2]. split; [|exact Hall2].
  eapply calm_wf; [|exact Hwf2]. repeat split.
Qed.

Lemma wf_fresh : wf fresh.
Proof.
  split; [intros h; reflexivity|]. split; [apply NoDup_nil_2|].
  intros h Hh. inversion Hh.
Qed.

Lemma thriving_started : thriving started.
Proof.
  split.
  - apply (calm_wf fresh); [|apply wf_fresh].
    split; [reflexivity|]. split; [|intros k; reflexivity]. intros k. reflexivity.
  - intros h x Hx. vm_compute in Hx. discriminate.
Qed.

Lemma thriving_serving : thriving serving.
Proof.
  destruct (child_enters arrivals started thriving_started eq_refl eq_refl)
    as (c' & Hc' & Hthr & _).
  unfold serving. rewrite Hc'. exact Hthr.
Qed.

Lemma past_entry_serving : past_entry serving.
Proof.
  intros h x _ Hx. destruct h as [|[|h]]; vm_compute in Hx; [| |discriminate];
    injection Hx as <-; discriminate.
Qed.

(** [end] on a runner in its loop, with every client there and every
    thread past its first statement: it returns, with every socket
    closed. *)
Lemma end_sound inputs c :
  thriving c → past_entry c → _server_proc (now c) = Polling →
  ∃ c', end_ inputs c = Done tt c'
        ∧ _server_proc (now c') = Released
        ∧ _soc (now c') = ListenClosed
        ∧ ∀ h x, handlers (now c') !! h = Some x →
                 ClientHandler._soc x = ClientHandler.SockClosed
                 ∧ ClientHandler.exited x = true
                 ∧ closes h (trace c') = 1%nat.
Proof.
  intros Hthr Hrun Hp. unfold end_, clear, join.
  cbv [bind emit modify get]. cbn [now trace set_enabled _server_proc]. rewrite Hp.
  set (c0 := Config _ _).
  assert (Hthr0 : thriving c0).
  { destruct Hthr as [Hwf Hall]. split; [|exact Hall].
    eapply calm_wf; [|exact Hwf]. split; [reflexivity|]. split; [|intros k; reflexivity].
    intros k. subst c0. cbn [now trace]. rewrite !closes_app. cbn. lia. }
  assert (Hf0 : _server_enabled (now c0) = false) by reflexivity.
  assert (Hp0 : _server_proc (now c0) = Polling) by exact Hp.
  assert (Hrun0 : past_entry c0) by exact Hrun.
  clearbody c0.
  unfold child. rewrite Hp0. unfold from_loop. unfold bind at 1.
  rewrite (poll_loop_flag_clear inputs c0 Hf0). unfold bind at 1.
  pose proof Hthr0 as [[Hcons [Hnd _]] Hall].
  rewrite final_sweep_each.
  destruct (each_sweep _ c0 Hcons Hnd (fun h => thriving_up c0 h Hthr0))
    as [(c1 & -> & Hcons1 & Hcl & Hrest & Hact)|(c1 & y & z & _ & Hy & Hz & Hpc)].
  2: { destruct (Hrun0 y z Hy Hz Hpc). }
  cbv [ret modify bind emit proc_close soc_close get]. cbn.
  eexists. split; [reflexivity|]. cbn. split; [reflexivity|]. split; [reflexivity|].
  intros h x Hx.
  assert (Hin : h ∈ _active_clients (now c0)).
  { destruct (decide (h ∈ _active_clients (now c0))) as [Hin|Hout]; [exact Hin|].
    rewrite (Hrest h Hout) in Hx. apply (Hall h x Hx). }
  destruct (Hcl h Hin) as (x' & Hx' & Hc & Hex).
  rewrite Hx in Hx'. injection Hx' as <-.
  split; [exact Hc|]. split; [exact Hex|].
  pose proof (Hcons1 h) as Hn. rewrite Hx in Hn. unfold sock_closed in Hn.
  rewrite Hc in Hn. unfold closes in Hn.
  rewrite !List.filter_app, !length_app, Hn. reflexivity.
Qed.
End Thriving.

(** * Where the runner fails *)

Section RunnerFails.
Import MyServer.

(** C4, against the code.  Two workers are in the active set, both in
    their loops, and the peer of the first has reset its connection
    when [end] clears the flag.  The runner leaves its loop and begins
    the sweep; the [getpeername] of line 82 raises [OSError] on the
    first worker, and the exception leaves [_server_loop].  [cleanup]
    has been called on neither worker: no flag is cleared, no thread
    joined, no socket closed, also not that of the second worker, whose
    client never went away.  The process cannot end while the threads
    run, and [end] waits in its [join]. *)
Theorem final_sweep_stops_at_a_lost_peer :
  _server_proc (now one_gone) = Polling
  ∧ _active_clients (now one_gone) = [0; 1]%nat
  ∧ final_sweep stopping = Raised OSError stopping
  ∧ ∃ c', end_ [] one_gone = Blocked c'
          ∧ trace c' = trace one_gone ++ [Log ClosingServer; FlagClear; ProcDied OSError]
          ∧ _active_clients (now c') = [0; 1]%nat
          ∧ open_in c' 0 ∧ open_in c' 1
          ∧ closes 0 (trace c') = 0%nat ∧ closes 1 (trace c') = 0%nat
          ∧ alive_in c' 0 ∧ alive_in c' 1
          ∧ up_in c' 1.
Proof.
  repeat split; try (vm_compute; reflexivity).
  eexists. split; [vm_compute; reflexivity|].
  repeat split; try (vm_compute; reflexivity);
    eexists; repeat split; vm_compute; reflexivity.
Qed.

(** C1, against the code.  Two workers are in the active set, both
    with their thread ended when the reap scan begins: their peers have
    reset the connections.  The scan calls [cleanup] on the first;
    the flag is cleared and the thread joined, and the [shutdown] of
    line 114 raises [OSError].  The socket is not closed, the worker is
    not removed, the second worker is not looked at, and the exception
    leaves the scan and [_server_loop]: the runner process dies with
    both workers in the set and both sockets open. *)
Theorem reap_scan_fails_on_a_dead_worker :
  _active_clients (now before_scan) = [0; 1]%nat
  ∧ on_handler 0 ClientHandler.is_alive before_scan = Done false before_scan
  ∧ on_handler 1 ClientHandler.is_alive before_scan = Done false before_scan
  ∧ (∃ c', reap before_scan = Raised OSError c'
           ∧ trace c' = trace before_scan ++ [ClientClear 0; ClientJoin 0]
           ∧ _active_clients (now c') = [0; 1]%nat
           ∧ open_in c' 0 ∧ open_in c' 1
           ∧ closes 0 (trace c') = 0%nat ∧ closes 1 (trace c') = 0%nat)
  ∧ ∃ c', child [both_gone] serving = Done tt c'
          ∧ trace c' = trace before_scan ++ [ClientClear 0; ClientJoin 0; ProcDied OSError]
          ∧ _server_proc (now c') = Terminated
          ∧ _active_clients (now c') = [0; 1]%nat
          ∧ open_in c' 0 ∧ open_in c' 1.
Proof.
  repeat split; try (vm_compute; reflexivity).
  - eexists. split; [vm_compute; reflexivity|].
    repeat split; try (vm_compute; reflexivity);
      eexists; split; vm_compute; reflexivity.
  - eexists. split; [vm_compute; reflexivity|].
    repeat split; try (vm_compute; reflexivity);
      eexists; split; vm_compute; reflexivity.
Qed.
End RunnerFails.

(** * The handle outside the normal course *)

Section Handle.
Import MyServer.

(** X1. [setup] returns exactly on a handle that is new: flag clear,
    socket never bound, address free, process never started; it then
    leaves the socket listening and the child started, in that order.
    In every other case it raises, and a [setup] that raises has not
    started a process. *)
Theorem setup_returns_iff u c :
  (∀ c',
      setup u c = Done tt c' ↔
      _server_enabled (now c) = false ∧ _soc (now c) = Fresh ∧ u = false
      ∧ _server_proc (now c) = NotStarted
      ∧ c' = Config (set_proc AtEntry (set_soc Listening (now c)))
               (trace c ++ [Log SettingUp; Bind; Listen; ProcStart]))
  ∧ (∀ e c',
        setup u c = Raised e c' →
        _server_proc (now c') = _server_proc (now c)
        ∧ ∃ evs, trace c' = trace c ++ evs ∧ ProcStart ∉ evs)
  ∧ ((∃ c', setup u c = Done tt c') ∨ (∃ e c', setup u c = Raised e c')).
Proof.
  destruct c as [[s f p a hs] tr].
  assert (Hok : setup false (Config (Build Fresh false NotStarted a hs) tr)
                = Done tt (Config (Build Listening false AtEntry a hs)
                             (tr ++ [Log SettingUp; Bind; Listen; ProcStart]))).
  { cbv -[app]. rewrite <- !app_assoc. reflexivity. }
  split; [|split].
  - intros c'. split.
    + destruct f, s, u, p; try (cbv -[app]; discriminate).
      rewrite Hok. intros [= <-]. repeat split.
    + cbn. intros (-> & -> & -> & -> & ->). exact Hok.
  - intros e c'.
    destruct f, s, u, p; cbv -[app]; intros H; simplify_eq; (split; [reflexivity|]);
      (eexists; split; [trace_eq|]);
      intros H; repeat (apply elem_of_cons in H as [H|H]; [discriminate|]); inversion H.
  - destruct f, s, u, p; cbv -[app]; eauto.
Qed.

(** X2. [end] on a handle whose process was never started, or has been
    released, fails at its [join] with [AssertionError] or [ValueError]
    respectively: the line is logged and the flag cleared, but the
    process is not released and the listening socket is not closed. *)
Theorem end_outside_its_window inputs c :
  let c0 := Config (set_enabled false (now c)) (trace c ++ [Log ClosingServer; FlagClear]) in
  (_server_proc (now c) = NotStarted → end_ inputs c = Raised AssertionError c0)
  ∧ (_server_proc (now c) = Released → end_ inputs c = Raised ValueError c0).
Proof.
  destruct c as [[s f p a hs] tr]. cbn.
  split; intros ->; cbv -[app]; rewrite <- !app_assoc; reflexivity.
Qed.

Lemma end_outside_its_window_witness :
  end_ arrivals fresh
  = Raised AssertionError
      (Config (set_enabled false (now fresh)) (trace fresh ++ [Log ClosingServer; FlagClear]))
  ∧ end_ [] ended_handle
    = Raised ValueError
        (Config (set_enabled false (now ended_handle))
           (trace ended_handle ++ [Log ClosingServer; FlagClear])).
Proof.
  split.
  - apply (proj1 (end_outside_its_window arrivals fresh)). reflexivity.
  - apply (proj2 (end_outside_its_window [] ended_handle)). vm_compute. reflexivity.
Defined.

(** X3. A handle is good for one run.  Once [end] has returned, a
    [setup] raises without starting anything, the handle left as it
    was, and a second [end] raises [ValueError] at its [join]. *)
Theorem handle_is_single_use inputs c c' :
  end_ inputs c = Done tt c' →
  (∀ u, ∃ e c'',
      setup u c' = Raised e c''
      ∧ (e = AssertionError ∨ e = OSError)
      ∧ now c'' = now c')
  ∧ (∀ inputs',
        end_ inputs' c'
        = Raised ValueError
            (Config (set_enabled false (now c')) (trace c' ++ [Log ClosingServer; FlagClear]))).
Proof.
  intros H. destruct (end_done_spec _ _ _ H) as (_ & _ & _ & _ & _ & _ & _ & _ & Hp & Hs).
  destruct c' as [[s f p a hs] tr]. cbn in Hp, Hs. subst s p. split.
  - intros u. destruct f; cbv -[app]; eauto 6.
  - intros inputs'. cbv -[app]. rewrite <- !app_assoc. reflexivity.
Qed.

Lemma handle_is_single_use_witness :
  ∃ c', end_ [] serving = Done tt c'
        ∧ (∃ e c'', setup false c' = Raised e c''
                    ∧ (e = AssertionError ∨ e = OSError) ∧ now c'' = now c')
        ∧ end_ [] c'
          = Raised ValueError
              (Config (set_enabled false (now c')) (trace c' ++ [Log ClosingServer; FlagClear])).
Proof.
  eexists. split; [vm_compute; reflexivity|].
  split.
  - apply (proj1 (handle_is_single_use [] serving _ ltac:(vm_compute; reflexivity)) false).
  - apply (proj2 (handle_is_single_use [] serving _ ltac:(vm_compute; reflexivity)) []).
Defined.


End Handle.

(** * The runner as long as nobody stops it *)

Section Runner.
Import MyServer.

(** X5. While every client stays, the poll loop runs on.  From a state
    in which every worker ever created is in the active set, its
    connection up and its thread running, passes during which no peer
    goes away all complete, whatever the threads do and whoever
    connects.  The loop is still running with the flag set, the runner
    has touched neither the listening socket nor the process object,
    every worker is still in the set and healthy, and no worker socket
    has been closed. *)
Theorem poll_loop_runs_while_clients_stay inputs c :
  thriving c → peaceful inputs = true → _server_enabled (now c) = true →
  ∃ c', poll_loop inputs c = Done true c'
        ∧ thriving c'
        ∧ _server_enabled (now c') = true
        ∧ _soc (now c') = _soc (now c)
        ∧ _server_proc (now c') = _server_proc (now c)
        ∧ (∀ h, closes h (trace c') = 0%nat)
        ∧ ∃ evs, trace c' = trace c ++ evs ∧ forallb loop_event evs = true.
Proof.
  intros Hthr Hpe Hf.
  destruct (thriving_poll_loop inputs c Hthr Hpe Hf) as (c' & H & Hthr' & [Hs Hp] & Hfl & Hg).
  exists c'. unfold same_flag in Hfl.
  split; [exact H|]. split; [exact Hthr'|]. split; [congruence|].
  split; [exact Hs|]. split; [exact Hp|]. split; [|exact Hg].
  intros h. destruct Hthr' as [[Hcons _] Hall]. rewrite Hcons.
  destruct (handlers (now c') !! h) as [x|] eqn:Hx; [|reflexivity].
  destruct (Hall h x Hx) as (_ & Ho & _). unfold sock_closed. rewrite Ho. reflexivity.
Qed.

Lemma poll_loop_runs_while_clients_stay_witness :
  ∃ c', poll_loop more_arrivals serving = Done true c'
        ∧ thriving c'
        ∧ _server_enabled (now c') = true
        ∧ _soc (now c') = _soc (now serving)
        ∧ _server_proc (now c') = _server_proc (now serving)
        ∧ (∀ h, closes h (trace c') = 0%nat)
        ∧ ∃ evs, trace c' = trace serving ++ evs ∧ forallb loop_event evs = true.
Proof.
  apply (poll_loop_runs_while_clients_stay more_arrivals serving thriving_serving);
    reflexivity.
Defined.

(** X6. An [end] that begins before the child has reached line 66
    does not return while every client stays: the child sets the flag
    after [end] has cleared it and polls on with the flag set, and
    [end] waits in its [join], the listening socket still open. *)
Theorem end_before_the_runner_enters_waits inputs c :
  thriving c → peaceful inputs = true → _server_proc (now c) = AtEntry →
  ∃ c' evs,
    end_ inputs c = Blocked c'
    ∧ _server_enabled (now c') = true
    ∧ _server_proc (now c') = Polling
    ∧ _soc (now c') = _soc (now c)
    ∧ trace c' = trace c ++ [Log ClosingServer; FlagClear; FlagSet] ++ evs
    ∧ forallb loop_event evs = true.
Proof.
  intros Hthr Hpe Hp. unfold end_, clear, join.
  cbv [bind emit modify get]. cbn [now trace set_enabled _server_proc]. rewrite Hp.
  unfold child. cbn [now set_enabled _server_proc]. rewrite Hp.
  unfold _server_loop. cbv [bind emit modify]. cbn [now trace].
  set (c1 := Config _ _).
  assert (Hthr1 : thriving c1).
  { destruct Hthr as [Hwf Hall]. split; [|exact Hall].
    eapply calm_wf; [|exact Hwf]. split; [reflexivity|]. split; [|intros k; reflexivity].
    intros k. subst c1. cbn [now trace]. rewrite !closes_app. cbn. lia. }
  assert (Hc1 : trace c1 = trace c ++ [Log ClosingServer; FlagClear; FlagSet])
    by (subst c1; cbn; rewrite <- !app_assoc; reflexivity).
  assert (Hs1 : _soc (now c1) = _soc (now c)) by reflexivity.
  assert (Hf1 : _server_enabled (now c1) = true) by reflexivity.
  clearbody c1. unfold from_loop. unfold bind at 1.
  destruct (thriving_poll_loop inputs c1 Hthr1 Hpe Hf1)
    as (c2 & -> & _ & [Hs2 _] & Hfl & evs & Htr & Hev).
  unfold same_flag in Hfl. cbn.
  eexists _, evs. split; [reflexivity|]. cbn.
  repeat split; try congruence.
  rewrite Htr, Hc1, <- !app_assoc. reflexivity.
Qed.

Lemma end_before_the_runner_enters_waits_witness :
  ∃ c' evs,
    end_ arrivals started = Blocked c'
    ∧ _server_enabled (now c') = true
    ∧ _server_proc (now c') = Polling
    ∧ _soc (now c') = _soc (now started)
    ∧ trace c' = trace started ++ [Log ClosingServer; FlagClear; FlagSet] ++ evs
    ∧ forallb loop_event evs = true.
Proof.
  apply (end_before_the_runner_enters_waits arrivals started thriving_started);
    reflexivity.
Defined.

Lemma same_size_refl c : same_size c c.
Proof. reflexivity. Qed.

Lemma same_size_trans c1 c2 c3 : same_size c1 c2 → same_size c2 c3 → same_size c1 c3.
Proof. unfold same_size. congruence. Qed.

Lemma keeps_size_on_handler {A} h (m : M ClientHandler.t A) :
  keeps same_size (on_handler h m).
Proof.
  intros c. unfold on_handler. destruct (handlers (now c) !! h) as [x|]; [|exact I].
  destruct (m (Config x (trace c))); try exact I;
    unfold same_size; cbn [now handlers set_handlers]; apply length_insert.
Qed.

Lemma keeps_size_happen_all evs : keeps same_size (happen_all evs).
Proof.
  induction evs as [|ev evs IH]; simpl; [apply keeps_ret, same_size_refl|].
  apply keeps_bind; [apply same_size_trans | | intros _; exact IH].
  intros c. unfold happen. destruct ev as [h|h e];
    (destruct (handlers (now c) !! h); [apply keeps_size_on_handler | apply same_size_refl]).
Qed.

Lemma keeps_size_reap : keeps same_size reap.
Proof.
  apply keeps_for_active; [apply same_size_refl | apply same_size_trans | intros h].
  unfold reap_one, remove.
  apply keeps_bind; [apply same_size_trans | apply keeps_size_on_handler | intros alive].
  destruct (negb alive); [|apply keeps_ret, same_size_refl].
  apply keeps_bind; [apply same_size_trans | apply keeps_size_on_handler | intros _].
  intros c. cbv [bind get]. destruct (list_remove h _); reflexivity.
Qed.

Lemma iteration_size i c c' :
  iteration i c = Done tt c' →
  length (handlers (now c'))
  = (length (handlers (now c)) + if pending i then 1 else 0)%nat.
Proof.
  unfold iteration. unfold bind at 1.
  pose proof (keeps_size_happen_all (happenings i) c) as H1.
  destruct (happen_all (happenings i) c) as [[] c1|e c1|c1|]; try discriminate.
  unfold bind at 1. unfold select_. cbv [bind emit ret]. cbn [now trace].
  set (c2 := Config _ _). assert (H2 : same_size c1 c2) by reflexivity. clearbody c2.
  destruct (pending i).
  - cbv [accept bind get modify emit]. cbn [now trace]. set (c3 := Config _ _).
    assert (H3 : length (handlers (now c3)) = S (length (handlers (now c2)))).
    { subst c3. cbn. rewrite length_app. cbn. lia. }
    clearbody c3. pose proof (keeps_size_reap c3) as H4.
    destruct (reap c3) as [[] c4|e c4|c4|]; try discriminate.
    intros [= <-]. unfold same_size in *. lia.
  - pose proof (keeps_size_reap c2) as H4.
    destruct (reap c2) as [[] c4|e c4|c4|]; try discriminate.
    intros [= <-]. unfold same_size in *. lia.
Qed.

(** X7. One worker per connection: over any number of passes of the
    loop, the number of workers created is the number of passes that
    found a connection waiting; no pass creates two, none is created
    otherwise, and a worker once created is never dropped from the
    table. *)
Theorem one_worker_per_connection inputs c b c' :
  _server_enabled (now c) = true →
  poll_loop inputs c = Done b c' →
  length (handlers (now c'))
  = (length (handlers (now c)) + pending_count inputs)%nat.
Proof.
  revert c b c'.
  induction inputs as [|i inputs IH]; intros c b c' Hf; simpl; cbv [bind get]; rewrite Hf.
  - intros [= <- <-]. unfold pending_count. simpl. lia.
  - pose proof (keeps_iteration i c) as Hk.
    destruct (iteration i c) as [[] c1|e c1|c1|] eqn:Hi; try discriminate.
    intros H. apply IH in H.
    + rewrite H, (iteration_size i c c1 Hi). unfold pending_count. simpl.
      destruct (pending i); simpl; lia.
    + destruct Hk as (_ & Hfl & _). unfold same_flag in Hfl. congruence.
Qed.

Lemma one_worker_per_connection_witness :
  ∃ c', poll_loop more_arrivals serving = Done true c'
        ∧ length (handlers (now c'))
          = (length (handlers (now serving)) + pending_count more_arrivals)%nat.
Proof.
  eexists. split; [vm_compute; reflexivity|].
  apply (one_worker_per_connection more_arrivals serving true); vm_compute; reflexivity.
Defined.

End Runner.

(** * The reap scan *)

Section Reap.
Import MyServer.

(** X8. A scan that finds every worker of the active set alive changes
    nothing: no worker is cleaned up or removed, nothing is logged. *)
Theorem reap_leaves_the_living c :
  (∀ h, h ∈ _active_clients (now c) → alive_in c h) →
  reap c = Done tt c.
Proof.
  intros Hal. unfold reap, for_active. cbv [bind get].
  apply scan_all_alive, Hal.
Qed.

Lemma reap_leaves_the_living_witness : reap serving = Done tt serving.
Proof.
  apply (reap_leaves_the_living serving).
  intros h. apply thriving_alive, thriving_serving.
Defined.

(** X9. The scan stops at the first dead worker whose peer has torn the
    connection down.  The workers before it, all alive, are passed
    over; [cleanup] clears the flag of the dead one and joins its
    thread, and the [shutdown] of line 114 raises [OSError].  The
    socket of that worker stays open, no socket is closed, the active
    set is what it was, and no other worker is touched. *)
Theorem reap_fails_at_the_first_dead c pre h post x e :
  _active_clients (now c) = pre ++ h :: post →
  (∀ y, y ∈ pre → alive_in c y) →
  handlers (now c) !! h = Some x →
  ClientHandler.exited x = true →
  ClientHandler._soc x = ClientHandler.SockOpen →
  ClientHandler.peer x = ClientHandler.PeerFailed e →
  ∃ c', reap c = Raised OSError c'
        ∧ trace c' = trace c ++ [ClientClear h; ClientJoin h]
        ∧ _active_clients (now c') = _active_clients (now c)
        ∧ (∀ k, closes k (trace c') = closes k (trace c))
        ∧ open_in c' h ∧ dead_in c' h
        ∧ ∀ k, k ≠ h → handlers (now c') !! k = handlers (now c) !! k.
Proof.
  intros Hact Hpre Hx Hex Ho Hgone.
  rewrite (reap_first_dead c pre h post x e Hact Hpre Hx Hex Ho Hgone).
  eexists. split; [reflexivity|]. cbn [now trace _active_clients set_handlers handlers].
  assert (Hh : <[h := ClientHandler.set_enabled false x]> (handlers (now c)) !! h
               = Some (ClientHandler.set_enabled false x)).
  { apply list_lookup_insert_eq. eapply lookup_lt_Some; eauto. }
  split; [reflexivity|]. split; [reflexivity|].
  split; [intros k; rewrite closes_app; cbn; lia|].
  split; [exists (ClientHandler.set_enabled false x); split; [exact Hh|exact Ho]|].
  split; [exists (ClientHandler.set_enabled false x); split; [exact Hh|exact Hex]|].
  intros k Hk. apply list_lookup_insert_ne. congruence.
Qed.

Lemma reap_fails_at_the_first_dead_witness :
  ∃ c', reap before_scan = Raised OSError c'
        ∧ trace c' = trace before_scan ++ [ClientClear 0; ClientJoin 0]
        ∧ _active_clients (now c') = _active_clients (now before_scan)
        ∧ (∀ k, closes k (trace c') = closes k (trace before_scan))
        ∧ open_in c' 0 ∧ dead_in c' 0
        ∧ ∀ k, k ≠ 0%nat → handlers (now c') !! k = handlers (now before_scan) !! k.
Proof.
  apply (reap_fails_at_the_first_dead before_scan [] 0 [1]%nat
           (ClientHandler.Build ClientHandler.SockOpen
              (ClientHandler.PeerFailed ConnectionResetError) true
              (ClientHandler.Exited None))
           ConnectionResetError);
    try (vm_compute; reflexivity).
  intros y Hy. inversion Hy.
Defined.

End Reap.

(** * The end of a run in which every client stayed *)

Section Passes.
Import MyServer.

(** X13. No socket is left open when every client has stayed.  On a
    runner that is in its loop, with every worker ever created in the
    active set, its connection up and its thread past its first
    statement, [end] returns, whatever is waiting on the listening
    socket; the process is released, the listening socket closed, and
    every worker has its thread ended and its socket closed, exactly
    once, by the final sweep. *)
Theorem end_closes_every_socket inputs c :
  thriving c → past_entry c → _server_proc (now c) = Polling →
  ∃ c', end_ inputs c = Done tt c'
        ∧ _server_proc (now c') = Released
        ∧ _soc (now c') = ListenClosed
        ∧ ∀ h x, handlers (now c') !! h = Some x →
                 ClientHandler._soc x = ClientHandler.SockClosed
                 ∧ ClientHandler.exited x = true
                 ∧ closes h (trace c') = 1%nat.
Proof. apply end_sound. Qed.

Lemma end_closes_every_socket_witness :
  ∃ c', end_ [] serving = Done tt c'
        ∧ _server_proc (now c') = Released
        ∧ _soc (now c') = ListenClosed
        ∧ ∀ h x, handlers (now c') !! h = Some x →
                 ClientHandler._soc x = ClientHandler.SockClosed
                 ∧ ClientHandler.exited x = true
                 ∧ closes h (trace c') = 1%nat.
Proof.
  apply (end_closes_every_socket [] serving thriving_serving past_entry_serving).
  reflexivity.
Defined.

End Passes.

(** * How a worker ends *)

Section WorkerEnd.
Import ClientHandler.

Lemma run_thread_add a b id : ∀ c,
  run_thread (a + b) id c = (run_thread a id ;; run_thread b id) c.
Proof.
  induction a as [|a IH]; intros c; simpl; [reflexivity|].
  unfold bind. destruct (thread_step id c) as [[] c1|e c1|c1|]; try reflexivity.
  rewrite IH. reflexivity.
Qed.

Lemma run_thread_exited n id : ∀ c,
  exited (now c) = true → run_thread n id c = Done tt c.
Proof.
  induction n as [|n IH]; intros c Hex; simpl; [reflexivity|].
  unfold bind. destruct (thread_step_spec id c) as (c' & evs & -> & Htr & _ & _ & _ & Hst).
  destruct (Hst Hex) as [Hn ->]. rewrite app_nil_r in Htr.
  assert (c' = c) as -> by (destruct c, c'; simpl in *; congruence).
  apply IH, Hex.
Qed.

(** The statements a thread still runs once its flag is clear. *)
Lemma cleared_run_short id h tr n c' :
  (n <= 3)%nat → _client_enabled h = false → _client_thread h ≠ AtEntry →
  run_thread n id (Config h tr) = Done tt c' →
  ∃ evs, trace c' = tr ++ evs ∧ (sends id evs <= 1)%nat.
Proof.
  destruct h as [s p f pc]; simpl. intros Hn -> Hpc.
  destruct n as [|[|[|[|n]]]]; [..|lia];
    (destruct pc; [contradiction|..]); destruct s, p as [|[]];
    cbv -[app Nat.eqb]; intros [= <-];
    (eexists; split; [trace_eq|]); unfold sends; cbn; rewrite ?Nat.eqb_refl; cbn; lia.
Qed.

(** X14. Clearing the flag stops a worker within one pass of its loop:
    a thread past its first statement whose flag is clear hands at most
    one more message to the socket, whatever the peer does and however
    long it is left to run, and after three statements it has ended. *)
Theorem cleared_worker_writes_at_most_once id h tr n c' :
  _client_enabled h = false → _client_thread h ≠ AtEntry →
  run_thread n id (Config h tr) = Done tt c' →
  ∃ evs, trace c' = tr ++ evs
         ∧ (sends id evs <= 1)%nat
         ∧ ((3 <= n)%nat → exited (now c') = true).
Proof.
  intros Hf Hpc Hrun. destruct (le_lt_dec n 3) as [Hle|Hgt].
  - destruct (cleared_run_short id h tr n c' Hle Hf Hpc Hrun) as (evs & Htr & Hs).
    exists evs. split; [exact Htr|]. split; [exact Hs|].
    intros Hn. assert (n = 3%nat) as -> by lia.
    apply (stops_within_bound id (Config h tr) c'); assumption.
  - replace n with (3 + (n - 3))%nat in Hrun by lia.
    rewrite run_thread_add in Hrun. unfold bind in Hrun.
    destruct (run_thread_done 3 id (Config h tr)) as (c3 & H3). rewrite H3 in Hrun.
    assert (Hex : exited (now c3) = true)
      by (apply (stops_within_bound id (Config h tr) c3); assumption).
    rewrite (run_thread_exited _ id c3 Hex) in Hrun. injection Hrun as <-.
    destruct (cleared_run_short id h tr 3 c3 (le_n _) Hf Hpc H3) as (evs & Htr & Hs).
    exists evs. auto.
Qed.

Lemma cleared_worker_writes_at_most_once_witness :
  ∃ c', run_thread 7 0 (Config (Build SockOpen PeerUp false AtSend) []) = Done tt c'
        ∧ ∃ evs, trace c' = [] ++ evs
                 ∧ (sends 0 evs <= 1)%nat
                 ∧ ((3 <= 7)%nat → exited (now c') = true).
Proof.
  eexists. split; [vm_compute; reflexivity|].
  apply (cleared_worker_writes_at_most_once 0 (Build SockOpen PeerUp false AtSend) [] 7).
  - reflexivity.
  - discriminate.
  - vm_compute. reflexivity.
Defined.

(** X15. [cleanup] returns while the peer is there.  On a worker whose
    socket is open, whose peer has not gone away and whose thread has
    run its first statement, whatever the state of the flag, [cleanup]
    completes: the thread has ended and has been joined, and the socket
    has been shut down and closed. *)
Theorem cleanup_returns_once_the_thread_runs id c :
  _soc (now c) = SockOpen → peer (now c) = PeerUp → _client_thread (now c) ≠ AtEntry →
  ∃ c' evs,
    cleanup id c = Done tt c'
    ∧ trace c' = trace c ++ ClientClear id :: evs ++ [ClientJoin id; Shutdown id; Close id]
    ∧ forallb (thread_event id) evs = true
    ∧ exited (now c') = true
    ∧ _soc (now c') = SockClosed.
Proof.
  intros Hopen Hup Hpc.
  destruct (cleanup_outcome id c Hopen)
    as [[_ [H|(c' & evs & _ & _ & _ & _ & Hentry)]]|(e & c' & evs & Hgone & _)];
    [exact H | contradiction | congruence].
Qed.

Lemma cleanup_returns_once_the_thread_runs_witness :
  ∃ c' evs,
    cleanup 0 (Config (Build SockOpen PeerUp true AtSleep) []) = Done tt c'
    ∧ trace c' = [] ++ ClientClear 0 :: evs ++ [ClientJoin 0; Shutdown 0; Close 0]
    ∧ forallb (thread_event 0) evs = true
    ∧ exited (now c') = true
    ∧ _soc (now c') = SockClosed.
Proof.
  apply (cleanup_returns_once_the_thread_runs 0 (Config (Build SockOpen PeerUp true AtSleep) []));
    [reflexivity | reflexivity | discriminate].
Defined.

Lemma exec_ticks id n : ∀ c td rest,
  exec id (repeat Tick n ++ rest) (Sys c td)
  = match run_thread n id c with
    | Done _ c' => exec id rest (Sys c' td)
    | _ => None
    end.
Proof.
  induction n as [|n IH]; intros c td rest; simpl; [reflexivity|].
  unfold bind. destruct (thread_step id c) as [[] c1|e c1|c1|]; try reflexivity.
  apply IH.
Qed.

Lemma steady_run n id : ∀ c c',
  steady (now c) → run_thread n id c = Done tt c' → steady (now c').
Proof.
  induction n as [|n IH]; intros c c' Hst; simpl.
  - intros [= <-]. exact Hst.
  - unfold bind. destruct (thread_step_spec id c) as (c1 & _ & Hs & _). rewrite Hs.
    apply IH. eapply steady_step; eauto.
Qed.

Lemma early_cleanup_state id h tr n :
  exec id (early_cleanup n) (Sys (Config h tr) None)
  = match run_thread n id (Config (set_enabled false h) (tr ++ [ClientClear id])) with
    | Done _ c' => Some (Sys c' (Some [SJoin; SShutdown; SClose]))
    | _ => None
    end.
Proof.
  unfold early_cleanup. rewrite <- (app_nil_r (repeat Tick n)).
  change (exec id ([Call; Next] ++ repeat Tick n ++ []) (Sys (Config h tr) None))
    with (exec id (repeat Tick n ++ [])
            (Sys (Config (set_enabled false h) (tr ++ [ClientClear id]))
               (Some [SJoin; SShutdown; SClose]))).
  rewrite exec_ticks. destruct (run_thread n id _); reflexivity.
Qed.

(** X16. A [cleanup] that clears the flag before the thread has run
    its first statement waits for ever while the peer stays: the
    thread sets the flag after the clear and goes on writing, so
    however many statements it runs it has not ended, the [join] is
    not enabled, and the socket stays open. *)
Theorem cleanup_before_first_statement_waits id h tr :
  _client_thread h = AtEntry → _soc h = SockOpen → peer h = PeerUp →
  (∀ n, ∃ s,
      exec id (early_cleanup n) (Sys (Config h tr) None) = Some s
      ∧ todo s = Some [SJoin; SShutdown; SClose]
      ∧ exited (now (cfg s)) = false
      ∧ _soc (now (cfg s)) = SockOpen
      ∧ step id Next s = None)
  ∧ ∃ c', cleanup id (Config h tr) = Blocked c'
          ∧ steady (now c')
          ∧ ∀ m cm, run_thread m id c' = Done tt cm → exited (now cm) = false.
Proof.
  destruct h as [s p f pc]. cbn [_client_thread _soc peer]. intros -> -> ->. split.
  - intros n. rewrite early_cleanup_state.
    set (c0 := Config _ _).
    destruct (run_thread_done n id c0) as (c' & Hrun). rewrite Hrun.
    assert (Hsoc : _soc (now c') = SockOpen).
    { destruct (run_thread_spec n id c0) as (c'' & _ & Hrun' & _ & _ & Hs).
      rewrite Hrun in Hrun'. injection Hrun' as <-. exact Hs. }
    assert (Hex : exited (now c') = false).
    { destruct n as [|n]; [injection Hrun as <-; reflexivity|].
      simpl in Hrun. unfold bind in Hrun.
      destruct (thread_step_spec id c0) as (c1 & _ & Hs1 & _). rewrite Hs1 in Hrun.
      apply steady_not_exited. apply (steady_run n id c1 c'); [|exact Hrun].
      subst c0. cbv -[app] in Hs1. injection Hs1 as <-. cbv. auto 10. }
    eexists. split; [reflexivity|]. cbn [todo cfg].
    split; [reflexivity|]. split; [exact Hex|]. split; [exact Hsoc|].
    unfold step. cbn [todo cfg exec_stmt]. unfold join_now. cbv [bind get]. rewrite Hex.
    reflexivity.
  - eexists. split; [cbv -[app]; reflexivity|]. cbn [now].
    assert (Hst : steady (Build SockOpen PeerUp true AtSleep)) by (cbv; auto 10).
    split; [exact Hst|]. intros m cm Hm.
    apply steady_not_exited. eapply steady_run; [|exact Hm]. exact Hst.
Qed.

Lemma cleanup_before_first_statement_waits_witness :
  (∃ s, exec 0 (early_cleanup 5) accepted = Some s
        ∧ todo s = Some [SJoin; SShutdown; SClose]
        ∧ exited (now (cfg s)) = false
        ∧ _soc (now (cfg s)) = SockOpen
        ∧ step 0 Next s = None)
  ∧ ∃ c', cleanup 0 (Config __init__ []) = Blocked c'
          ∧ steady (now c')
          ∧ ∀ m cm, run_thread m 0 c' = Done tt cm → exited (now cm) = false.
Proof.
  split.
  - apply (proj1 (cleanup_before_first_statement_waits 0 __init__ [] eq_refl eq_refl eq_refl) 5%nat).
  - apply (proj2 (cleanup_before_first_statement_waits 0 __init__ [] eq_refl eq_refl eq_refl)).
Defined.

Lemma sent_on_the_wire id tr :
  forallb on_the_wire tr = true →
  sent id tr = concat (repeat hello (sends id tr)).
Proof.
  induction tr as [|e tr IH]; [reflexivity|]. simpl.
  intros [He Htr]%andb_prop. specialize (IH Htr). unfold sends in *.
  destruct e; simpl; try exact IH.
  apply bool_decide_eq_true in He. subst data.
  destruct (Nat.eqb h id); simpl; [rewrite IH; reflexivity | exact IH].
Qed.

Lemma lookup_hello_repeated k : ∀ i b,
  concat (repeat hello k) !! i = Some b → hello !! (i mod 11)%nat = Some b.
Proof.
  induction k as [|k IH]; intros i b; cbn [repeat concat].
  - rewrite lookup_nil. discriminate.
  - destruct (decide (i < 11)%nat) as [Hlt|Hge].
    + rewrite lookup_app_l by exact Hlt. rewrite Nat.mod_small by exact Hlt. auto.
    + rewrite lookup_app_r by (change (length hello) with 11%nat; lia).
      change (length hello) with 11%nat. intros H%IH.
      replace i with ((i - 11) + 1 * 11)%nat by lia.
      rewrite Nat.Div0.mod_add. exact H.
Qed.

(** X17. What a client reads is [Hello World] over and over: in every
    interleaving, the bytes a worker has handed to its socket are as
    many copies of the eleven bytes as it has made writes, with
    nothing between them, so the byte at position [i] of the stream is
    the byte at position [i mod 11] of the message. *)
Theorem stream_is_hello_repeated id sched s :
  exec id sched accepted = Some s →
  sent id (trace (cfg s)) = concat (repeat hello (sends id (trace (cfg s))))
  ∧ ∀ i b, sent id (trace (cfg s)) !! i = Some b → hello !! (i mod 11)%nat = Some b.
Proof.
  intros Hs.
  assert (Hw : forallb on_the_wire (trace (cfg s)) = true)
    by (eapply exec_on_the_wire; eauto).
  pose proof (sent_on_the_wire id _ Hw) as Hsent. split; [exact Hsent|].
  intros i b. rewrite Hsent. apply lookup_hello_repeated.
Qed.

Lemma stream_is_hello_repeated_witness :
  ∃ s, exec 0 interleaved accepted = Some s
       ∧ sent 0 (trace (cfg s)) = concat (repeat hello (sends 0 (trace (cfg s))))
       ∧ ∀ i b, sent 0 (trace (cfg s)) !! i = Some b → hello !! (i mod 11)%nat = Some b.
Proof.
  eexists. split; [vm_compute; reflexivity|].
  apply (stream_is_hello_repeated 0 interleaved). vm_compute. reflexivity.
Defined.


Lemma lost_peer_run id h tr e :
  peer h = PeerFailed e → _soc h = SockOpen → exited h = false →
  ∃ c' evs,
    run_thread 3 id (Config h tr) = Done tt c'
    ∧ trace c' = tr ++ evs
    ∧ sends id evs = 0%nat
    ∧ exited (now c') = true
    ∧ _soc (now c') = SockOpen
    ∧ (_client_thread h = AtEntry → _client_thread (now c') = Exited (Some OSError))
    ∧ (_client_thread h ≠ AtEntry → disconnect_class e = true →
       _client_thread (now c') = Exited None)
    ∧ (_client_thread h ≠ AtEntry → _client_enabled h = true → disconnect_class e = false →
       _client_thread (now c') = Exited (Some e)).
Proof.
  destruct h as [s p f pc]; simpl. intros -> -> Hex.
  destruct pc; try discriminate; destruct f, e;
    (eexists _, _; split; [cbv -[app]; reflexivity|]; split; [trace_eq|]);
    cbn; repeat split; intros; try discriminate; try congruence.
Qed.

(** X18. A lost peer ends the thread: once the peer has torn the
    connection down, a thread that has not ended runs at most three
    more statements, none of them a completed write, and has then
    ended; the socket is still open, left for the runner to close.  A
    thread that had not yet run its first statement dies of the
    [OSError] that the [getpeername] of line 119 raises, outside the
    [try]; one that is in its loop ends by a plain return when the
    failure of the write is a reset or an abort of the connection, and
    dies of the exception of the write when it is anything else and
    the flag is set. *)
Theorem lost_peer_ends_the_thread id h tr e :
  peer h = PeerFailed e → _soc h = SockOpen → exited h = false →
  ∃ c' evs,
    run_thread 3 id (Config h tr) = Done tt c'
    ∧ trace c' = tr ++ evs
    ∧ sends id evs = 0%nat
    ∧ exited (now c') = true
    ∧ _soc (now c') = SockOpen
    ∧ (_client_thread h = AtEntry → _client_thread (now c') = Exited (Some OSError))
    ∧ (_client_thread h ≠ AtEntry → disconnect_class e = true →
       _client_thread (now c') = Exited None)
    ∧ (_client_thread h ≠ AtEntry → _client_enabled h = true → disconnect_class e = false →
       _client_thread (now c') = Exited (Some e)).
Proof. apply lost_peer_run. Qed.

Lemma lost_peer_ends_the_thread_witness :
  ∃ c' evs,
    run_thread 3 0 (Config writing_to_nobody []) = Done tt c'
    ∧ trace c' = [] ++ evs
    ∧ sends 0 evs = 0%nat
    ∧ exited (now c') = true
    ∧ _soc (now c') = SockOpen
    ∧ (_client_thread writing_to_nobody = AtEntry →
       _client_thread (now c') = Exited (Some OSError))
    ∧ (_client_thread writing_to_nobody ≠ AtEntry →
       disconnect_class ConnectionResetError = true →
       _client_thread (now c') = Exited None)
    ∧ (_client_thread writing_to_nobody ≠ AtEntry →
       _client_enabled writing_to_nobody = true →
       disconnect_class ConnectionResetError = false →
       _client_thread (now c') = Exited (Some ConnectionResetError)).
Proof.
  apply (lost_peer_ends_the_thread 0 writing_to_nobody [] ConnectionResetError);
    reflexivity.
Defined.

End WorkerEnd.

(** * A client that goes away *)

Section LostClient.
Import MyServer.

(** Statements of a worker thread, run as happenings of a pass. *)
Lemma happen_runs h n : ∀ c x,
  handlers (now c) !! h = Some x →
  ∃ c' x', happen_all (repeat (Runs h) n) c = Done tt c'
           ∧ handlers (now c') !! h = Some x'
           ∧ same_others h c c'
           ∧ ClientHandler.run_thread n h (Config x (trace c)) = Done tt (Config x' (trace c')).
Proof.
  induction n as [|n IH]; intros c x Hx; simpl.
  - exists c, x. split; [reflexivity|]. split; [exact Hx|]. split; [|reflexivity].
    intros k _. reflexivity.
  - unfold bind. unfold happen at 1. rewrite Hx. unfold on_handler. rewrite Hx.
    destruct (thread_step_spec h (Config x (trace c))) as (c1 & evs & Hs & _). rewrite Hs.
    set (c2 := Config _ (trace c1)).
    assert (H2 : handlers (now c2) !! h = Some (now c1)).
    { subst c2. cbn [now handlers set_handlers].
      apply list_lookup_insert_eq. eapply lookup_lt_Some; eauto. }
    assert (Ho2 : same_others h c c2).
    { intros k Hk. subst c2. cbn [now handlers set_handlers].
      apply list_lookup_insert_ne. congruence. }
    destruct (IH c2 (now c1) H2) as (c' & x' & -> & Hx' & Ho & Hrun).
    exists c', x'. split; [reflexivity|]. split; [exact Hx'|].
    split; [intros k Hk; rewrite (Ho k Hk); apply Ho2, Hk|].
    rewrite <- Hrun. subst c2. cbn [trace]. destruct c1; reflexivity.
Qed.

(** The peer of a running worker goes away and the thread runs three
    statements: the thread has ended, on a socket that is open and
    without a connection; no other worker has changed. *)
Lemma lost_client_dies c h x e :
  handlers (now c) !! h = Some x →
  ClientHandler._soc x = ClientHandler.SockOpen →
  ClientHandler.exited x = false →
  ∃ c' x', happen_all (Fails h e :: repeat (Runs h) 3) c = Done tt c'
           ∧ calm c c' ∧ same_others h c c'
           ∧ handlers (now c') !! h = Some x'
           ∧ ClientHandler.exited x' = true
           ∧ ClientHandler._soc x' = ClientHandler.SockOpen
           ∧ ClientHandler.peer x' = ClientHandler.PeerFailed e.
Proof.
  intros Hx Ho Hex.
  destruct (happen_all_done (Fails h e :: repeat (Runs h) 3) c) as (c' & Hc' & Hcalm).
  exists c'.
  change (happen_all (Fails h e :: repeat (Runs h) 3))
    with (happen (Fails h e) ;; happen_all (repeat (Runs h) 3)) in Hc' |- *.
  unfold bind in Hc' |- *. unfold happen at 1 in Hc'. unfold happen at 1.
  rewrite Hx in Hc' |- *.
  unfold on_handler in Hc' |- *. rewrite Hx in Hc' |- *.
  cbv [modify] in Hc' |- *. cbn [now trace] in Hc' |- *.
  set (c1 := Config _ (trace c)) in Hc' |- *.
  set (x1 := ClientHandler.set_peer (ClientHandler.PeerFailed e) x) in *.
  assert (H1 : handlers (now c1) !! h = Some x1).
  { subst c1. cbn [now handlers set_handlers].
    apply list_lookup_insert_eq. eapply lookup_lt_Some; eauto. }
  assert (Ho1 : same_others h c c1).
  { intros k Hk. subst c1. cbn [now handlers set_handlers].
    apply list_lookup_insert_ne. congruence. }
  destruct (happen_runs h 3 c1 x1 H1) as (c2 & x2 & Hc2 & Hx2 & Ho2 & Hrun).
  rewrite Hc2 in Hc' |- *. injection Hc' as <-.
  destruct (lost_peer_run h x1 (trace c1) e) as (c3 & _ & Hrun3 & _ & _ & Hex3 & Hs3 & _);
    [reflexivity | destruct x; exact Ho | destruct x; exact Hex |].
  pose proof (run_thread_peer _ _ _ _ Hrun3) as Hp3.
  rewrite Hrun in Hrun3. injection Hrun3 as <-.
  exists x2. split; [reflexivity|]. split; [exact Hcalm|].
  split; [intros k Hk; rewrite (Ho2 k Hk); apply Ho1, Hk|].
  split; [exact Hx2|]. split; [exact Hex3|]. split; [exact Hs3|]. exact Hp3.
Qed.

(** X19. A client that goes away stops the runner.  Every worker is in
    the active set, its connection up and its thread running, when
    the peer of worker [h] tears its connection down.  The thread of
    [h] ends within three statements; the reap scan of the same pass
    passes over the workers before [h], calls [cleanup] on [h], and the
    [shutdown] of line 114 raises [OSError], which leaves the poll
    loop whatever passes were to follow.  The worker is still in the
    active set, no socket has been closed, also not that of [h], and
    no other worker has been touched. *)
Theorem lost_client_stops_the_runner c h e rest :
  thriving c → _server_enabled (now c) = true →
  h ∈ _active_clients (now c) →
  ∃ c', poll_loop (Input (Fails h e :: repeat (Runs h) 3) false :: rest) c
        = Raised OSError c'
        ∧ _active_clients (now c') = _active_clients (now c)
        ∧ dead_in c' h
        ∧ (∀ k, k ∈ _active_clients (now c') → open_in c' k)
        ∧ (∀ k, closes k (trace c') = 0%nat)
        ∧ (∀ k, k ≠ h → handlers (now c') !! k = handlers (now c) !! k).
Proof.
  intros Hthr Hf Hh.
  destruct (thriving_alive c h Hthr Hh) as (x & Hx & Hex).
  destruct (thriving_up c h Hthr Hh) as (x0 & Hx0 & Ho & _).
  assert (x0 = x) as -> by congruence.
  destruct (lost_client_dies c h x e Hx Ho Hex)
    as (ca & xa & Hca & Hcalm & Hoth & Hxa & Hexa & Hoa & Hpa).
  cbn [poll_loop]. unfold bind at 1. unfold get at 1. cbv iota. rewrite Hf.
  unfold bind at 1. unfold iteration. cbn [happenings pending].
  unfold bind at 1. rewrite Hca.
  unfold bind at 1. unfold select_. cbv [bind emit ret]. cbn [now trace].
  set (cb := Config (now ca) _).
  assert (Hactb : _active_clients (now cb) = _active_clients (now c))
    by (destruct Hcalm as (Ha & _); exact Ha).
  assert (Hclb : ∀ k, closes k (trace cb) = 0%nat).
  { intros k. subst cb. cbn [trace]. rewrite closes_app.
    destruct Hcalm as (_ & Hcl & _). rewrite Hcl.
    destruct Hthr as [[Hcons _] Hall]. rewrite Hcons.
    destruct (handlers (now c) !! k) as [y|] eqn:Hy; [|reflexivity].
    destruct (Hall k y Hy) as (_ & Hyo & _). unfold sock_closed. rewrite Hyo. reflexivity. }
  assert (Hxb : handlers (now cb) !! h = Some xa) by exact Hxa.
  assert (Hothb : same_others h c cb) by exact Hoth.
  clearbody cb.
  destruct (list_elem_of_split_l (_active_clients (now c)) h Hh) as (pre & post & Hact & Hpre).
  rewrite (reap_first_dead cb pre h post xa e); [| congruence | | assumption..].
  - eexists. split; [reflexivity|]. cbn [now trace _active_clients set_handlers handlers].
    assert (Hh' : <[h := ClientHandler.set_enabled false xa]> (handlers (now cb)) !! h
                  = Some (ClientHandler.set_enabled false xa)).
    { apply list_lookup_insert_eq. eapply lookup_lt_Some; eauto. }
    split; [exact Hactb|].
    split; [exists (ClientHandler.set_enabled false xa); split; [exact Hh'|exact Hexa]|].
    split; [|split].
    + intros k Hk. destruct (decide (k = h)) as [->|Hne].
      * exists (ClientHandler.set_enabled false xa). split; [exact Hh'|exact Hoa].
      * rewrite Hactb in Hk. destruct (thriving_up c k Hthr Hk) as (y & Hy & Hyo & _).
        exists y. split; [|exact Hyo]. cbn [now handlers set_handlers].
        rewrite list_lookup_insert_ne by congruence. rewrite (Hothb k Hne). exact Hy.
    + intros k. rewrite closes_app, Hclb. reflexivity.
    + intros k Hk. rewrite list_lookup_insert_ne by congruence. apply Hothb, Hk.
  - intros y Hy.
    assert (Hne : y ≠ h) by (intros ->; contradiction).
    destruct (thriving_alive c y Hthr) as (z & Hz & Hzex).
    { rewrite Hact. apply elem_of_app. left. exact Hy. }
    exists z. split; [|exact Hzex]. rewrite (Hothb y Hne). exact Hz.
Qed.

Lemma lost_client_stops_the_runner_witness :
  ∃ c', poll_loop (Input (Fails 1 BrokenPipeError :: repeat (Runs 1) 3) false
                   :: [idle; idle]) serving
        = Raised OSError c'
        ∧ _active_clients (now c') = _active_clients (now serving)
        ∧ dead_in c' 1
        ∧ (∀ k, k ∈ _active_clients (now c') → open_in c' k)
        ∧ (∀ k, closes k (trace c') = 0%nat)
        ∧ (∀ k, k ≠ 1%nat → handlers (now c') !! k = handlers (now serving) !! k).
Proof.
  apply (lost_client_stops_the_runner serving 1%nat BrokenPipeError [idle; idle]
           thriving_serving).
  - reflexivity.
  - vm_compute. apply list_elem_of_further, list_elem_of_here.
Defined.

End LostClient.

(** * A whole run *)

Section WholeRun.
Import MyServer.

(** X20. A whole run in which every client stays leaves nothing open.
    [setup] on a new handle returns; whatever the worker threads do and
    whoever connects, as long as no peer goes away, the child enters
    its loop and stays in it; and an [end] that finds every thread past
    its first statement returns with the process released, the
    listening socket closed, and every worker ever created with its
    thread ended and its socket closed exactly once. *)
Theorem whole_run_leaves_nothing_open inputs inputs' :
  peaceful inputs = true →
  setup false fresh = Done tt started
  ∧ ∃ c1, child inputs started = Done tt c1
          ∧ _server_proc (now c1) = Polling
          ∧ (past_entry c1 →
             ∃ c2, end_ inputs' c1 = Done tt c2
                   ∧ _server_proc (now c2) = Released
                   ∧ _soc (now c2) = ListenClosed
                   ∧ ∀ h x, handlers (now c2) !! h = Some x →
                            ClientHandler._soc x = ClientHandler.SockClosed
                            ∧ ClientHandler.exited x = true
                            ∧ closes h (trace c2) = 1%nat).
Proof.
  intros Hpe. split; [reflexivity|].
  destruct (child_enters inputs started thriving_started Hpe eq_refl)
    as (c1 & Hc1 & Hthr1 & Hp1 & _).
  exists c1. split; [exact Hc1|]. split; [exact Hp1|]. intros Hrun.
  apply (end_sound inputs' c1 Hthr1 Hrun Hp1).
Qed.

Lemma whole_run_leaves_nothing_open_witness :
  ∃ c1, child arrivals started = Done tt c1
        ∧ past_entry c1
        ∧ ∃ c2, end_ [] c1 = Done tt c2
                ∧ _server_proc (now c2) = Released
                ∧ _soc (now c2) = ListenClosed
                ∧ ∀ h x, handlers (now c2) !! h = Some x →
                         ClientHandler._soc x = ClientHandler.SockClosed
                         ∧ ClientHandler.exited x = true
                         ∧ closes h (trace c2) = 1%nat.
Proof.
  destruct (whole_run_leaves_nothing_open arrivals [] eq_refl) as (_ & c1 & Hc1 & _ & Hend).
  exists c1. split; [exact Hc1|].
  assert (Hrun : past_entry c1).
  { vm_compute in Hc1. injection Hc1 as <-. intros h x _ Hx.
    destruct h as [|[|h]]; vm_compute in Hx; try discriminate;
      injection Hx as <-; discriminate. }
  split; [exact Hrun | exact (Hend Hrun)].
Defined.
End WholeRun.
